(** * Count-Min Sketch and top-K provider tracker

    A shallow embedding of [src/claim_process/count_min_sketch.py]:
    the [CountMinSketch] class (a [depth] x [width] table of float64
    counters addressed by salted SHA-256 hashes) and the
    [TopProvidersTracker] class (a [heapq] min-heap of [ProviderNetFee]
    objects, a dictionary from provider to the same objects, and a
    dictionary of exact claim counts).

    Python methods are computations in a state-and-exception monad over
    the object they are called on.  What the module imports from Python's
    library (float64 and [Decimal] arithmetic, [hashlib.sha256]) is
    gathered in the class [Runtime]; [heapq] and [sorted] are transcribed
    from the library. *)

From Stdlib Require Import ZArith Floats.
From stdpp Require Import gmap strings list pretty sorting.

Set Default Proof Using "Type".
Set Warnings "-clear-no-such-hyp".
#[local] Open Scope Z_scope.

(** ** Exceptions and the method monad *)

Inductive exn := ValueError | ZeroDivisionError | IndexError | KeyError.

Inductive result (A : Type) :=
| Ok (a : A)
| Raise (e : exn).
Arguments Ok {A} a.
Arguments Raise {A} e.

Definition is_ok {A} (r : result A) : bool :=
  match r with Ok _ => true | Raise _ => false end.

(** A method run on an object in state [S]: the state it leaves (also
    when it raises: what was mutated before the exception stays
    mutated) and its outcome. *)
Definition M (S A : Type) : Type := S -> S * result A.

Definition ret {S A} (a : A) : M S A := fun s => (s, Ok a).
Definition raise {S A} (e : exn) : M S A := fun s => (s, Raise e).
Definition bind {S A B} (m : M S A) (f : A -> M S B) : M S B :=
  fun s => match m s with
           | (s', Ok a) => f a s'
           | (s', Raise e) => (s', Raise e)
           end.
Definition get {S} : M S S := fun s => (s, Ok s).
Definition modify {S} (f : S -> S) : M S unit := fun s => (f s, Ok tt).

Notation "'let!' x ':=' m 'in' k" := (bind m (fun x => k))
  (at level 10, x name, m at level 100, k at level 200).

(** [for x in l: body x] *)
Fixpoint for_each {S A} (l : list A) (body : A -> M S unit) : M S unit :=
  match l with
  | [] => ret tt
  | x :: l' => let! _ := body x in for_each l' body
  end.

(** [for x in l: acc = body x acc] *)
Fixpoint for_fold {S A B} (l : list A) (acc : B) (body : A -> B -> M S B) : M S B :=
  match l with
  | [] => ret acc
  | x :: l' => let! acc' := body x acc in for_fold l' acc' body
  end.

(** [range(n)] for a Python int [n]. *)
Definition range (n : Z) : list nat := seq 0 (Z.to_nat n).

(** Python's index normalisation for a sequence of length [n]:
    [-n <= j < 0] counts from the end, anything outside raises. *)
Definition py_index (n : nat) (j : Z) : option nat :=
  if decide (0 <= j < Z.of_nat n) then Some (Z.to_nat j)
  else if decide (- Z.of_nat n <= j < 0) then Some (Z.to_nat (j + Z.of_nat n))
  else None.

(** ** What the module takes from Python's library

    [float64] is NumPy's/Python's binary64, [Decimal] is
    [decimal.Decimal].  The operations are the ones the source applies
    to them. *)
Class Runtime := {
  float64 : Type;
  Decimal : Type;
  f_zero : float64;                                (* 0.0 *)
  f_inf : float64;                                 (* float('inf') *)
  f_e : float64;                                   (* math.e *)
  f_add : float64 -> float64 -> float64;           (* x + y *)
  f_div : float64 -> float64 -> float64;           (* x / y, y nonzero *)
  f_ltb : float64 -> float64 -> bool;              (* x < y *)
  f_of_int : Z -> float64;                         (* float(n) *)
  to_float : Decimal -> float64;                   (* float(d) *)
  of_float : float64 -> Decimal;                   (* Decimal(str(x)) *)
  d_zero : Decimal;                                (* Decimal("0.00") *)
  d_cent : Decimal;                                (* Decimal("0.01") *)
  d_add : Decimal -> Decimal -> Decimal;           (* a + b *)
  d_sub : Decimal -> Decimal -> Decimal;           (* a - b *)
  d_mul : Decimal -> Decimal -> Decimal;           (* a * b *)
  d_abs : Decimal -> Decimal;                      (* abs(a) *)
  d_ltb : Decimal -> Decimal -> bool;              (* a < b *)
  (* int(hashlib.sha256(s.encode()).hexdigest(), 16) *)
  sha256_int : string -> Z
}.

(** ** [heapq], after CPython's [Lib/heapq.py]

    A heap is a Python list; [lt] is the elements' [__lt__]. *)
Section heapq.
Context {A : Type} (lt : A -> A -> bool).

(** The [while pos > startpos] loop of [_siftdown]: [newitem] travels
    towards the root while it is smaller than its parent.  [pos] halves
    at every turn, so [fuel = pos] turns are enough. *)
Fixpoint _siftdown_loop (fuel : nat) (heap : list A) (newitem : A)
    (startpos pos : nat) : list A :=
  match fuel with
  | O => <[pos := newitem]> heap
  | S fuel' =>
    if decide (startpos < pos)%nat then
      let parentpos := ((pos - 1) / 2)%nat in
      match heap !! parentpos with
      | Some parent =>
        if lt newitem parent
        then _siftdown_loop fuel' (<[pos := parent]> heap) newitem startpos parentpos
        else <[pos := newitem]> heap
      | None => <[pos := newitem]> heap
      end
    else <[pos := newitem]> heap
  end.

Definition _siftdown (heap : list A) (startpos pos : nat) : list A :=
  match heap !! pos with
  | Some newitem => _siftdown_loop pos heap newitem startpos pos
  | None => heap
  end.

(** The [while childpos < endpos] loop of [_siftup]: the smaller child
    moves up into the hole at [pos]; returns the list and the leaf where
    the hole ends. *)
Fixpoint _siftup_loop (fuel : nat) (heap : list A) (pos childpos : nat)
    : list A * nat :=
  match fuel with
  | O => (heap, pos)
  | S fuel' =>
    let endpos := length heap in
    if decide (childpos < endpos)%nat then
      let rightpos := (childpos + 1)%nat in
      let childpos' :=
        match heap !! childpos, heap !! rightpos with
        | Some c, Some r => if negb (lt c r) then rightpos else childpos
        | _, _ => childpos
        end in
      match heap !! childpos' with
      | Some child =>
        _siftup_loop fuel' (<[pos := child]> heap) childpos' (2 * childpos' + 1)%nat
      | None => (heap, pos)
      end
    else (heap, pos)
  end.

Definition _siftup (heap : list A) (pos : nat) : list A :=
  match heap !! pos with
  | Some newitem =>
    let '(heap', leaf) := _siftup_loop (length heap) heap pos (2 * pos + 1)%nat in
    _siftdown (<[leaf := newitem]> heap') pos leaf
  | None => heap
  end.

Definition heappush (heap : list A) (item : A) : list A :=
  _siftdown (heap ++ [item]) 0 (length heap).

(** [heappop]: [None] stands for the [IndexError] of [heap.pop()] on an
    empty list. *)
Definition heappop (heap : list A) : option (A * list A) :=
  match reverse heap with
  | [] => None
  | lastelt :: rest_rev =>
    let heap' := reverse rest_rev in
    match heap' with
    | [] => Some (lastelt, [])
    | returnitem :: _ => Some (returnitem, _siftup (<[0%nat := lastelt]> heap') 0)
    end
  end.

(** [for i in reversed(range(n//2)): _siftup(x, i)] *)
Definition heapify (x : list A) : list A :=
  foldl (fun h i => _siftup h i) x (reverse (seq 0 (length x / 2))).

End heapq.

(** [sorted(l, key=key, reverse=True)] where the keys are compared with
    [lt]: a stable sort into descending order (elements with equal keys
    keep the order they had in [l]). *)
Section sorted.
Context {A K : Type} (lt : K -> K -> bool) (key : A -> K).

Fixpoint insert_desc (x : A) (l : list A) : list A :=
  match l with
  | [] => [x]
  | y :: l' => if lt (key x) (key y) then y :: insert_desc x l' else x :: y :: l'
  end.

Definition sorted_desc (l : list A) : list A := foldr insert_desc [] l.

End sorted.

(** ** The two classes of the module *)
Section model.
Context {R : Runtime}.

(** *** [class CountMinSketch] *)

Record CountMinSketch := {
  width : Z;
  depth : Z;
  table : list (list float64);   (* np.zeros((depth, width), dtype=np.float64) *)
  total_sum : Decimal;
  hash_salts : list string
}.

Definition set_table (t : list (list float64)) (self : CountMinSketch) :=
  {| width := width self; depth := depth self; table := t;
     total_sum := total_sum self; hash_salts := hash_salts self |}.
Definition set_total_sum (d : Decimal) (self : CountMinSketch) :=
  {| width := width self; depth := depth self; table := table self;
     total_sum := d; hash_salts := hash_salts self |}.

(** [np.zeros((depth, width))]: NumPy refuses a negative dimension with
    a [ValueError]. *)
Definition np_zeros (rows cols : Z) : result (list (list float64)) :=
  if decide (rows < 0 \/ cols < 0) then Raise ValueError
  else Ok (replicate (Z.to_nat rows) (replicate (Z.to_nat cols) f_zero)).

(** [f"salt_{i}"] *)
Definition salt (i : nat) : string := "salt_" +:+ pretty i.

(** [CountMinSketch.__init__] *)
Definition CountMinSketch_init (width depth : Z) : result CountMinSketch :=
  match np_zeros depth width with
  | Raise e => Raise e
  | Ok tbl =>
    Ok {| width := width; depth := depth; table := tbl;
          total_sum := d_zero; hash_salts := salt <$> range depth |}
  end.

(** [CountMinSketch._hash] *)
Definition _hash (item : string) (seed : nat) : M CountMinSketch Z :=
  let! self := get in
  match hash_salts self !! seed with
  | None => raise IndexError
  | Some s =>
    let hash_input := s +:+ ":" +:+ item in
    let hash_value := sha256_int hash_input in
    if decide (width self = 0) then raise ZeroDivisionError
    else ret (hash_value `mod` width self)
  end.

(** [self.table[i][j]] *)
Definition table_get (i : nat) (j : Z) : M CountMinSketch float64 :=
  let! self := get in
  match table self !! i with
  | None => raise IndexError
  | Some row =>
    match py_index (length row) j with
    | None => raise IndexError
    | Some j' =>
      match row !! j' with
      | Some x => ret x
      | None => raise IndexError
      end
    end
  end.

(** [self.table[i][j] += x] *)
Definition table_iadd (i : nat) (j : Z) (x : float64) : M CountMinSketch unit :=
  let! self := get in
  match table self !! i with
  | None => raise IndexError
  | Some row =>
    match py_index (length row) j with
    | None => raise IndexError
    | Some j' =>
      match row !! j' with
      | Some c => modify (set_table (<[i := <[j' := f_add c x]> row]> (table self)))
      | None => raise IndexError
      end
    end
  end.

(** [CountMinSketch.add] *)
Definition add (provider_npi : string) (net_fee : Decimal) : M CountMinSketch unit :=
  let fee_float := to_float net_fee in
  let! self := get in
  let! _ := for_each (range (depth self)) (fun i =>
              let! j := _hash provider_npi i in
              table_iadd i j fee_float) in
  modify (fun self => set_total_sum (d_add (total_sum self) net_fee) self).

(** Python's [min(a, b)]: the first argument unless the second is
    smaller. *)
Definition py_min (a b : float64) : float64 := if f_ltb b a then b else a.

(** The loop of [estimate], before the conversion to [Decimal]. *)
Definition min_estimate (provider_npi : string) : M CountMinSketch float64 :=
  let! self := get in
  for_fold (range (depth self)) f_inf (fun i min_estimate =>
    let! j := _hash provider_npi i in
    let! c := table_get i j in
    ret (py_min min_estimate c)).

(** [CountMinSketch.estimate] *)
Definition estimate (provider_npi : string) : M CountMinSketch Decimal :=
  let! m := min_estimate provider_npi in
  ret (of_float m).

(** [self.table += other.table], both of the same shape. *)
Definition table_plus (t1 t2 : list (list float64)) : list (list float64) :=
  zip_with (zip_with f_add) t1 t2.

(** [CountMinSketch.merge] *)
Definition merge (other : CountMinSketch) : M CountMinSketch unit :=
  let! self := get in
  if decide (width self <> width other \/ depth self <> depth other)
  then raise ValueError
  else
    let! _ := modify (fun self => set_table (table_plus (table self) (table other)) self) in
    modify (fun self => set_total_sum (d_add (total_sum self) (total_sum other)) self).

(** [CountMinSketch.clear] *)
Definition clear : M CountMinSketch unit :=
  let! _ := modify (fun self => set_table (map (map (fun _ => f_zero)) (table self)) self) in
  modify (set_total_sum d_zero).

(** [CountMinSketch.error_estimate] *)
Definition error_estimate : M CountMinSketch Decimal :=
  let! self := get in
  if decide (width self = 0) then raise ZeroDivisionError
  else
    let epsilon := f_div f_e (f_of_int (width self)) in
    ret (d_mul (total_sum self) (of_float epsilon)).

(** *** [class ProviderNetFee] *)

Record ProviderNetFee := {
  provider_npi : string;
  net_fee_total : Decimal;
  claim_count : Z
}.

(** [ProviderNetFee.__lt__] *)
Definition ProviderNetFee_lt (a b : ProviderNetFee) : bool :=
  d_ltb (net_fee_total a) (net_fee_total b).

(** *** [class TopProvidersTracker]

    [top_providers] and [provider_map] hold references to the same
    [ProviderNetFee] objects, and [_update_top_k] mutates an object
    through the dictionary's reference.  The objects therefore live in
    a store, [objects], and both containers hold references into it. *)

Definition ref := nat.

Record TopProvidersTracker := {
  k : Z;
  sketch : CountMinSketch;
  top_providers : list ref;
  provider_map : gmap string ref;
  claim_counts : gmap string Z;
  objects : gmap ref ProviderNetFee;
  next_ref : ref
}.

Definition set_sketch (sk : CountMinSketch) (self : TopProvidersTracker) :=
  {| k := k self; sketch := sk; top_providers := top_providers self;
     provider_map := provider_map self; claim_counts := claim_counts self;
     objects := objects self; next_ref := next_ref self |}.
Definition set_top_providers (h : list ref) (self : TopProvidersTracker) :=
  {| k := k self; sketch := sketch self; top_providers := h;
     provider_map := provider_map self; claim_counts := claim_counts self;
     objects := objects self; next_ref := next_ref self |}.
Definition set_provider_map (m : gmap string ref) (self : TopProvidersTracker) :=
  {| k := k self; sketch := sketch self; top_providers := top_providers self;
     provider_map := m; claim_counts := claim_counts self;
     objects := objects self; next_ref := next_ref self |}.
Definition set_claim_counts (c : gmap string Z) (self : TopProvidersTracker) :=
  {| k := k self; sketch := sketch self; top_providers := top_providers self;
     provider_map := provider_map self; claim_counts := c;
     objects := objects self; next_ref := next_ref self |}.
Definition set_objects (o : gmap ref ProviderNetFee) (n : ref) (self : TopProvidersTracker) :=
  {| k := k self; sketch := sketch self; top_providers := top_providers self;
     provider_map := provider_map self; claim_counts := claim_counts self;
     objects := o; next_ref := n |}.

(** The object a reference points to.  Every reference the tracker
    holds is allocated, so the default is never read. *)
Definition deref (objs : gmap ref ProviderNetFee) (r : ref) : ProviderNetFee :=
  default {| provider_npi := ""; net_fee_total := d_zero; claim_count := 0 |} (objs !! r).

(** [a < b] on two references, as [heapq] evaluates it. *)
Definition ref_lt (objs : gmap ref ProviderNetFee) (a b : ref) : bool :=
  ProviderNetFee_lt (deref objs a) (deref objs b).

(** [TopProvidersTracker.__init__] *)
Definition TopProvidersTracker_init (k width depth : Z) : result TopProvidersTracker :=
  match CountMinSketch_init width depth with
  | Raise e => Raise e
  | Ok sk =>
    Ok {| k := k; sketch := sk; top_providers := []; provider_map := ∅;
          claim_counts := ∅; objects := ∅; next_ref := 0%nat |}
  end.

(** A call of a method of [self.sketch]. *)
Definition on_sketch {A} (m : M CountMinSketch A) : M TopProvidersTracker A :=
  fun self => let '(sk, r) := m (sketch self) in (set_sketch sk self, r).

(** [ProviderNetFee(provider_npi=..., net_fee_total=..., claim_count=...)] *)
Definition new_ProviderNetFee (o : ProviderNetFee) : M TopProvidersTracker ref :=
  let! self := get in
  let r := next_ref self in
  let! _ := modify (set_objects (<[r := o]> (objects self)) (S r)) in
  ret r.

(** [provider.net_fee_total = v] *)
Definition setattr_net_fee_total (provider : ref) (v : Decimal) : M TopProvidersTracker unit :=
  modify (fun self =>
    let o := deref (objects self) provider in
    set_objects (<[provider := {| provider_npi := provider_npi o; net_fee_total := v;
                                  claim_count := claim_count o |}]> (objects self))
                (next_ref self) self).

(** [provider.claim_count = n] *)
Definition setattr_claim_count (provider : ref) (n : Z) : M TopProvidersTracker unit :=
  modify (fun self =>
    let o := deref (objects self) provider in
    set_objects (<[provider := {| provider_npi := provider_npi o;
                                  net_fee_total := net_fee_total o;
                                  claim_count := n |}]> (objects self))
                (next_ref self) self).

(** [heapq.heapify(self.top_providers)] *)
Definition heapify_top_providers : M TopProvidersTracker unit :=
  modify (fun self =>
    set_top_providers (heapify (ref_lt (objects self)) (top_providers self)) self).

(** [heapq.heappush(self.top_providers, provider)] *)
Definition heappush_top_providers (provider : ref) : M TopProvidersTracker unit :=
  modify (fun self =>
    set_top_providers (heappush (ref_lt (objects self)) (top_providers self) provider) self).

(** [heapq.heappop(self.top_providers)] *)
Definition heappop_top_providers : M TopProvidersTracker ref :=
  let! self := get in
  match heappop (ref_lt (objects self)) (top_providers self) with
  | None => raise IndexError
  | Some (removed, h) =>
    let! _ := modify (set_top_providers h) in
    ret removed
  end.

(** [del self.provider_map[key]] *)
Definition del_provider_map (key : string) : M TopProvidersTracker unit :=
  let! self := get in
  match provider_map self !! key with
  | None => raise KeyError
  | Some _ => modify (set_provider_map (delete key (provider_map self)))
  end.

(** The two statements that both admitting branches of [_update_top_k]
    end with, after the new object is built:
    [heapq.heappush(self.top_providers, provider)] and
    [self.provider_map[provider_npi] = provider]. *)
Definition track (npi : string) (total : Decimal) : M TopProvidersTracker unit :=
  let! self := get in
  let! provider := new_ProviderNetFee
      {| provider_npi := npi; net_fee_total := total;
         claim_count := default 0 (claim_counts self !! npi) |} in
  let! _ := heappush_top_providers provider in
  modify (fun self => set_provider_map (<[npi := provider]> (provider_map self)) self).

(** [TopProvidersTracker._update_top_k] *)
Definition _update_top_k (npi : string) (total : Decimal) : M TopProvidersTracker unit :=
  let! self := get in
  match provider_map self !! npi with
  | Some provider =>
    let! _ := setattr_net_fee_total provider total in
    let! _ := setattr_claim_count provider (default 0 (claim_counts self !! npi)) in
    heapify_top_providers
  | None =>
    if decide (Z.of_nat (length (top_providers self)) < k self) then
      track npi total
    else
      match top_providers self with
      | [] => raise IndexError
      | root :: _ =>
        if d_ltb (net_fee_total (deref (objects self) root)) total then
          let! removed := heappop_top_providers in
          let! _ := del_provider_map (provider_npi (deref (objects self) removed)) in
          track npi total
        else ret tt
      end
  end.

(** [TopProvidersTracker.add_claim] *)
Definition add_claim (npi : string) (net_fee : Decimal) : M TopProvidersTracker unit :=
  let! _ := on_sketch (add npi net_fee) in
  let! _ := modify (fun self =>
              set_claim_counts
                (<[npi := default 0 (claim_counts self !! npi) + 1]> (claim_counts self))
                self) in
  let! estimated_total := on_sketch (estimate npi) in
  _update_top_k npi estimated_total.

(** [TopProvidersTracker.get_top_k]: the references of the sorted list. *)
Definition get_top_k : M TopProvidersTracker (list ref) :=
  let! self := get in
  ret (sorted_desc d_ltb (fun x => net_fee_total (deref (objects self) x))
         (top_providers self)).

(** One entry of [stats["discrepancies"]] and the dictionary
    [verify_accuracy] returns.  The source renders the decimals with
    [str]; the values are kept here. *)
Record discrepancy := {
  disc_provider_npi : string;
  heap_value : Decimal;
  sketch_estimate : Decimal;
  difference : Decimal
}.

Record accuracy_stats := {
  heap_size : nat;
  total_providers : nat;
  total_net_fees : Decimal;
  max_error_estimate : Decimal;
  discrepancies : list discrepancy
}.

(** [TopProvidersTracker.verify_accuracy] *)
Definition verify_accuracy : M TopProvidersTracker accuracy_stats :=
  let! self := get in
  let! max_error := on_sketch error_estimate in
  let! found := for_fold (top_providers self) [] (fun provider found =>
      let! self := get in
      let o := deref (objects self) provider in
      let! est := on_sketch (estimate (provider_npi o)) in
      if d_ltb d_cent (d_abs (d_sub est (net_fee_total o)))
      then ret (found ++ [ {| disc_provider_npi := provider_npi o;
                              heap_value := net_fee_total o;
                              sketch_estimate := est;
                              difference := d_abs (d_sub est (net_fee_total o)) |} ])
      else ret found) in
  ret {| heap_size := length (top_providers self);
         total_providers := size (claim_counts self);
         total_net_fees := total_sum (sketch self);
         max_error_estimate := max_error;
         discrepancies := found |}.

(** The state after a sequence of calls, each run to its end whether it
    returned or raised. *)
Definition run_adds (evs : list (string * Decimal)) (s : CountMinSketch) : CountMinSketch :=
  foldl (fun s ev => (add ev.1 ev.2 s).1) s evs.

Definition run_claims (evs : list (string * Decimal)) (t : TopProvidersTracker)
    : TopProvidersTracker :=
  foldl (fun t ev => (add_claim ev.1 ev.2 t).1) t evs.

End model.

(** ** The module's global tracker and the repository's query

    [get_tracker] and [reset_tracker] of the module, and
    [ClaimRepository.get_top_providers] of
    [repositories/claim_repository.py], which reads the global
    tracker. *)
Section repository.
Context {R : Runtime}.

(** The outcome of a call that does not touch the state. *)
Definition call {S A} (r : result A) : M S A := fun s => (s, r).

(** The module's global [_global_tracker]: [None] until the first
    [get_tracker()]. *)
Definition module_state := option TopProvidersTracker.

(** [get_tracker]: the global tracker, built with the defaults
    [k=10, width=2719, depth=5] on first use. *)
Definition get_tracker : M module_state TopProvidersTracker :=
  let! _global_tracker := get in
  match _global_tracker with
  | None =>
    let! tracker := call (TopProvidersTracker_init 10 2719 5) in
    let! _ := modify (fun _ => Some tracker) in
    ret tracker
  | Some tracker => ret tracker
  end.

(** [reset_tracker] *)
Definition reset_tracker : M module_state unit :=
  let! tracker := call (TopProvidersTracker_init 10 2719 5) in
  modify (fun _ => Some tracker).

(** A method call on the object [get_tracker()] returned.  That object
    is the global's, so what the method leaves of it is what the global
    holds afterwards. *)
Definition on_tracker {A} (tracker : TopProvidersTracker) (m : M TopProvidersTracker A)
    : M module_state A :=
  fun _ => let '(tracker', r) := m tracker in (Some tracker', r).

(** Python's [l[:n]]: the first [n] elements, or all but the last [-n]
    when [n] is negative. *)
Definition py_slice_to {A} (n : Z) (l : list A) : list A :=
  if decide (0 <= n) then take (Z.to_nat n) l
  else take (Z.to_nat (Z.of_nat (length l) + n)) l.

(** An entry of the list [ClaimRepository.get_top_providers] returns.
    The source renders the total with [str]; the decimal is kept
    here. *)
Record top_provider_row := {
  row_provider_npi : string;
  row_total_net_fees : Decimal;
  row_claim_count : Z;
  row_rank : Z
}.

(** The [ProviderNetFee] objects of the program: those of the global
    tracker, none before there is one. *)
Definition the_objects : M module_state (gmap ref ProviderNetFee) :=
  let! _global_tracker := get in
  ret (match _global_tracker with
       | Some tracker => objects tracker
       | None => ∅
       end).

(** [ClaimRepository.get_top_providers] (the database session is not
    used by it). *)
Definition get_top_providers (limit : Z) : M module_state (list top_provider_row) :=
  let! tracker := get_tracker in
  let! top_providers := on_tracker tracker get_top_k in
  let! objs := the_objects in
  ret (imap (fun idx provider =>
               let o := deref objs provider in
               {| row_provider_npi := provider_npi o;
                  row_total_net_fees := net_fee_total o;
                  row_claim_count := claim_count o;
                  row_rank := Z.of_nat idx + 1 |})
            (py_slice_to limit top_providers)).

End repository.

(** ** CPython's library

    The instance of [Runtime] the module runs on: IEEE-754 binary64
    (the kernel's primitive floats), [decimal.Decimal] under the default
    context (28 significant digits, round-half-even), the shortest
    round-tripping [str] of a float, and SHA-256. *)
Module CPython.

(** *** [decimal.Decimal]

    [DFin c e] is the number [c * 10^e].  The signals of the [decimal]
    module (InvalidOperation on [Infinity - Infinity] or on ordering a
    NaN) are not modelled: those operations give the quiet result of a
    context that does not trap (NaN, and [False] for the comparison).
    They are met only by non-finite operands. *)
Inductive decimal :=
| DFin (coeff exp : Z)
| DInf (negative : bool)
| DNaN.

Fixpoint num_digits_go (fuel : nat) (n : Z) : Z :=
  match fuel with
  | O => 1
  | S fuel' => if n <? 10 then 1 else 1 + num_digits_go fuel' (n / 10)
  end.

(** The number of decimal digits of [n >= 0]. *)
Definition num_digits (n : Z) : Z := num_digits_go (Z.to_nat (Z.log2 n)) n.

(** [n / 10^s] rounded to the nearest integer, ties to even ([n >= 0]). *)
Definition div_half_even (n : Z) (s : Z) : Z :=
  let p := 10 ^ s in
  let q := n / p in
  let r := n mod p in
  if 2 * r <? p then q
  else if p <? 2 * r then q + 1
  else if Z.even q then q else q + 1.

(** The context's rounding to [prec = 28] significant digits. *)
Definition context_prec : Z := 28.

Definition fix_prec (c e : Z) : decimal :=
  let n := num_digits (Z.abs c) in
  if n <=? context_prec then DFin c e
  else
    let s := n - context_prec in
    DFin (Z.sgn c * div_half_even (Z.abs c) s) (e + s).

Definition dec_neg (a : decimal) : decimal :=
  match a with
  | DFin c e => DFin (- c) e
  | DInf s => DInf (negb s)
  | DNaN => DNaN
  end.

Definition dec_add (a b : decimal) : decimal :=
  match a, b with
  | DNaN, _ | _, DNaN => DNaN
  | DInf s, DInf s' => if Bool.eqb s s' then DInf s else DNaN
  | DInf s, DFin _ _ => DInf s
  | DFin _ _, DInf s => DInf s
  | DFin c1 e1, DFin c2 e2 =>
    let e := Z.min e1 e2 in
    fix_prec (c1 * 10 ^ (e1 - e) + c2 * 10 ^ (e2 - e)) e
  end.

Definition dec_sub (a b : decimal) : decimal := dec_add a (dec_neg b).

Definition dec_mul (a b : decimal) : decimal :=
  match a, b with
  | DNaN, _ | _, DNaN => DNaN
  | DInf s, DInf s' => DInf (xorb s s')
  | DInf s, DFin c _ | DFin c _, DInf s =>
    if c =? 0 then DNaN else DInf (xorb s (c <? 0))
  | DFin c1 e1, DFin c2 e2 => fix_prec (c1 * c2) (e1 + e2)
  end.

Definition dec_abs (a : decimal) : decimal :=
  match a with
  | DFin c e => DFin (Z.abs c) e
  | DInf _ => DInf false
  | DNaN => DNaN
  end.

Definition dec_ltb (a b : decimal) : bool :=
  match a, b with
  | DNaN, _ | _, DNaN => false
  | DInf s, DInf s' => s && negb s'
  | DInf s, DFin _ _ => s
  | DFin _ _, DInf s => negb s
  | DFin c1 e1, DFin c2 e2 =>
    let e := Z.min e1 e2 in
    c1 * 10 ^ (e1 - e) <? c2 * 10 ^ (e2 - e)
  end.

(** *** binary64 *)

(** [float(n)] for an integer: the nearest binary64. *)
Definition float_of_Z (n : Z) : float :=
  SF2Prim (binary_normalize prec emax n 0 false).

(** [float(d)]: the binary64 nearest to the decimal, ties to even. *)
Definition float_of_decimal (d : decimal) : float :=
  match d with
  | DNaN => nan
  | DInf s => if s then neg_infinity else infinity
  | DFin c e =>
    if 0 <=? e then float_of_Z (c * 10 ^ e)
    else
      match c with
      | 0 => zero
      | Z.pos m =>
        SF2Prim (SFdiv prec emax (S754_finite false m 0)
                   (S754_finite false (Z.to_pos (10 ^ (- e))) 0))
      | Z.neg m =>
        SF2Prim (SFdiv prec emax (S754_finite true m 0)
                   (S754_finite false (Z.to_pos (10 ^ (- e))) 0))
      end
  end.

(** [floor(log10(num/den))] for positive [num], [den]. *)
Fixpoint scale_up (fuel : nat) (num den : Z) (k : Z) : Z :=
  match fuel with
  | O => k
  | S fuel' => if den <=? num then k else scale_up fuel' (num * 10) den (k + 1)
  end.

Definition floor_log10 (num den : Z) : Z :=
  if den <=? num then num_digits (num / den) - 1
  else - scale_up 400 (num * 10) den 1.

(** [str(x)] read back as a decimal, for a positive finite
    [x = num/den]: the decimal with the fewest significant digits that
    [float] maps to [x], and among those the one closest to [x]. *)
Fixpoint shortest_go (fuel : nat) (x : float) (num den : Z) (lg : Z) (n : Z) : decimal :=
  let q := lg - n + 1 in
  let '(a, b) := if 0 <=? q then (num, den * 10 ^ q) else (num * 10 ^ (- q), den) in
  let lo := a / b in
  let hi := lo + 1 in
  let ok_lo := PrimFloat.eqb (float_of_decimal (DFin lo q)) x in
  let ok_hi := PrimFloat.eqb (float_of_decimal (DFin hi q)) x in
  let r := a mod b in
  let pick_lo := if 2 * r <? b then true else if b <? 2 * r then false else Z.even lo in
  if ok_lo && ok_hi then DFin (if pick_lo then lo else hi) q
  else if ok_lo then DFin lo q
  else if ok_hi then DFin hi q
  else
    match fuel with
    | O => DFin lo q
    | S fuel' => shortest_go fuel' x num den lg (n + 1)
    end.

Definition shortest_decimal (x : float) (m : positive) (e : Z) : decimal :=
  let '(num, den) := if 0 <=? e then (Z.pos m * 2 ^ e, 1) else (Z.pos m, 2 ^ (- e)) in
  shortest_go 17 x num den (floor_log10 num den) 1.

Fixpoint strip_zeros (fuel : nat) (c q : Z) : Z * Z :=
  match fuel with
  | O => (c, q)
  | S fuel' => if (c mod 10 =? 0) && negb (c =? 0) then strip_zeros fuel' (c / 10) (q + 1)
               else (c, q)
  end.

(** The coefficient and exponent [Decimal] reads off the string:
    [str] writes the digits [c * 10^q] in positional notation, ending
    in ".0" for an integer, when the decimal point falls within
    [-4 < n + q <= 16] for [n] digits, and in exponent notation
    otherwise. *)
Definition as_written (c q : Z) : decimal :=
  let '(c, q) := strip_zeros 40 c q in
  let decpt := num_digits c + q in
  if (0 <=? q) && (decpt <=? 16) then DFin (c * 10 ^ (q + 1)) (-1) else DFin c q.

(** [Decimal(str(x))] *)
Definition decimal_of_float (x : float) : decimal :=
  match Prim2SF x with
  | S754_nan => DNaN
  | S754_infinity s => DInf s
  | S754_zero _ => DFin 0 (-1)
  | S754_finite s m e =>
    match shortest_decimal (PrimFloat.abs x) m e with
    | DFin c q =>
      match as_written c q with
      | DFin c' q' => DFin (if s then - c' else c') q'
      | d => d
      end
    | d => d
    end
  end.

(** *** [hashlib.sha256] (FIPS 180-4), on byte strings *)

Definition w32 (x : Z) : Z := x mod 2 ^ 32.
Definition rotr (n x : Z) : Z := Z.lor (Z.shiftr x n) (w32 (Z.shiftl x (32 - n))).
Definition Ch (x y z : Z) : Z :=
  Z.lxor (Z.land x y) (Z.land (Z.lxor x (2 ^ 32 - 1)) z).
Definition Maj (x y z : Z) : Z :=
  Z.lxor (Z.lxor (Z.land x y) (Z.land x z)) (Z.land y z).
Definition Sigma0 (x : Z) : Z := Z.lxor (Z.lxor (rotr 2 x) (rotr 13 x)) (rotr 22 x).
Definition Sigma1 (x : Z) : Z := Z.lxor (Z.lxor (rotr 6 x) (rotr 11 x)) (rotr 25 x).
Definition sigma0 (x : Z) : Z := Z.lxor (Z.lxor (rotr 7 x) (rotr 18 x)) (Z.shiftr x 3).
Definition sigma1 (x : Z) : Z := Z.lxor (Z.lxor (rotr 17 x) (rotr 19 x)) (Z.shiftr x 10).

(** The round constants are the first 32 fractional bits of the cube
    roots of the first 64 primes, the initial state those of the square
    roots of the first 8. *)
Definition is_prime (n : nat) : bool :=
  forallb (fun d => negb (n mod d =? 0)%nat) (seq 2 (n - 2)).

Definition first_primes (n : nat) : list Z :=
  Z.of_nat <$> take n (filter (fun p => is_prime p = true) (seq 2 400)).

Fixpoint icbrt_go (bits : nat) (n r : Z) : Z :=
  match bits with
  | O => r
  | S b =>
    let r' := r + 2 ^ Z.of_nat b in
    if r' * r' * r' <=? n then icbrt_go b n r' else icbrt_go b n r
  end.

Definition round_constants : list Z :=
  Eval vm_compute in (fun p => w32 (icbrt_go 40 (p * 2 ^ 96) 0)) <$> first_primes 64.

Definition initial_state : list Z :=
  Eval vm_compute in (fun p => w32 (Z.sqrt (p * 2 ^ 64))) <$> first_primes 8.

Definition bytes_of_string (s : string) : list Z :=
  (fun a => Z.of_N (Ascii.N_of_ascii a)) <$> String.list_ascii_of_string s.

(** The message, a one bit, zeros up to 56 modulo 64 bytes, and the
    length in bits as a 64-bit big-endian integer. *)
Definition be_bytes (n : nat) (x : Z) : list Z :=
  (fun i => Z.shiftr x (8 * Z.of_nat i) mod 256) <$> reverse (seq 0 n).

Definition pad (msg : list Z) : list Z :=
  let l := Z.of_nat (length msg) in
  let zeros := Z.to_nat ((55 - l) mod 64) in
  msg ++ [128] ++ replicate zeros 0 ++ be_bytes 8 (8 * l).

Definition be_word (bs : list Z) : Z := foldl (fun acc b => acc * 256 + b) 0 bs.

Fixpoint chunks {A} (fuel n : nat) (l : list A) : list (list A) :=
  match fuel with
  | O => []
  | S fuel' =>
    match l with
    | [] => []
    | _ => take n l :: chunks fuel' n (drop n l)
    end
  end.

(** The message schedule: [w] holds W[0..t-1], extended to 64 words. *)
Fixpoint schedule (fuel : nat) (w : list Z) : list Z :=
  match fuel with
  | O => w
  | S fuel' =>
    let t := length w in
    let at_ i := default 0 (w !! (t - i)%nat) in
    schedule fuel'
      (w ++ [w32 (sigma1 (at_ 2%nat) + at_ 7%nat + sigma0 (at_ 15%nat) + at_ 16%nat)])
  end.

Definition sha_round (st : list Z) (kw : Z * Z) : list Z :=
  match st with
  | [a; b; c; d; e; f; g; h] =>
    let t1 := h + Sigma1 e + Ch e f g + kw.1 + kw.2 in
    let t2 := Sigma0 a + Maj a b c in
    [w32 (t1 + t2); a; b; c; w32 (d + t1); e; f; g]
  | _ => st
  end.

Definition compress (st : list Z) (block : list Z) : list Z :=
  let w := schedule 48 (be_word <$> chunks 16 4 block) in
  let st' := foldl sha_round st (zip round_constants w) in
  zip_with (fun x y => w32 (x + y)) st st'.

Definition sha256_words (s : string) : list Z :=
  let msg := pad (bytes_of_string s) in
  foldl compress initial_state (chunks (length msg) 64 msg).

(** [int(hashlib.sha256(s.encode()).hexdigest(), 16)] *)
Definition sha256_hexint (s : string) : Z :=
  foldl (fun acc w => acc * 2 ^ 32 + w) 0 (sha256_words s).

(** [math.e], whose [repr] is 2.718281828459045. *)
Definition math_e : float := float_of_decimal (DFin 2718281828459045 (-15)).

Definition runtime : Runtime := {|
  float64 := float;
  Decimal := decimal;
  f_zero := PrimFloat.zero;
  f_inf := PrimFloat.infinity;
  f_e := math_e;
  f_add := PrimFloat.add;
  f_div := PrimFloat.div;
  f_ltb := PrimFloat.ltb;
  f_of_int := float_of_Z;
  to_float := float_of_decimal;
  of_float := decimal_of_float;
  d_zero := DFin 0 (-2);
  d_cent := DFin 1 (-2);
  d_add := dec_add;
  d_sub := dec_sub;
  d_mul := dec_mul;
  d_abs := dec_abs;
  d_ltb := dec_ltb;
  sha256_int := sha256_hexint
|}.

End CPython.

(** ** An exact fixed-point runtime

    Amounts and counters as whole cents (an integer, or [None] for
    +infinity), added without rounding: the "fixed-point decimal-safe
    accumulator" that the design names beside binary64.  It shows that
    the order laws some theorems below ask of the cell arithmetic can
    be met. *)
Module FixedPoint.

Definition cents := option Z.

Definition c_add (a b : cents) : cents :=
  match a, b with
  | Some x, Some y => Some (x + y)
  | _, _ => None
  end.

Definition c_sub (a b : cents) : cents :=
  match a, b with
  | Some x, Some y => Some (x - y)
  | None, Some _ => None
  | _, None => Some 0
  end.

Definition c_mul (a b : cents) : cents :=
  match a, b with
  | Some x, Some y => Some (x * y / 100)
  | _, _ => None
  end.

Definition c_div (a b : cents) : cents :=
  match a, b with
  | Some x, Some y => Some (x * 100 / y)
  | None, _ => None
  | Some _, None => Some 0
  end.

Definition c_abs (a : cents) : cents := Z.abs <$> a.

Definition c_ltb (a b : cents) : bool :=
  match a, b with
  | Some x, Some y => x <? y
  | Some _, None => true
  | None, _ => false
  end.

Definition runtime : Runtime := {|
  float64 := cents;
  Decimal := cents;
  f_zero := Some 0;
  f_inf := None;
  f_e := Some 272;
  f_add := c_add;
  f_div := c_div;
  f_ltb := c_ltb;
  f_of_int := fun n => Some (100 * n);
  to_float := fun d => d;
  of_float := fun x => x;
  d_zero := Some 0;
  d_cent := Some 1;
  d_add := c_add;
  d_sub := c_sub;
  d_mul := c_mul;
  d_abs := c_abs;
  d_ltb := c_ltb;
  sha256_int := CPython.sha256_hexint
|}.

End FixedPoint.

(** ** The vocabulary of the properties

    The predicates and functions in which the properties below are
    stated, and the concrete sketches and trackers on which they are
    exercised. *)
Section vocabulary.
Context {R : Runtime}.
Implicit Types (s : CountMinSketch) (t : TopProvidersTracker) (tbl : list (list float64)).

(** The column of [npi] in row [i] of a sketch of width [w]. *)
Definition col (w : Z) (npi : string) (i : nat) : nat :=
  Z.to_nat (sha256_int (salt i +:+ ":" +:+ npi) `mod` w).

(** The counter in row [i], column [j]. *)
Definition cell tbl (i j : nat) : option float64 :=
  match tbl !! i with
  | Some row => row !! j
  | None => None
  end.

(** The class invariant [__init__] establishes: a positive width, and a
    table and salts of the declared dimensions. *)
Record wf_sketch s : Prop := {
  wf_width : 0 < width s;
  wf_rows : length (table s) = Z.to_nat (depth s);
  wf_cols : Forall (fun row => length row = Z.to_nat (width s)) (table s);
  wf_salts : hash_salts s = salt <$> range (depth s)
}.

(** The minimum that [estimate] takes over the rows. *)
Definition min_cells s (npi : string) : float64 :=
  foldl (fun m i => py_min m (default f_zero (cell (table s) i (col (width s) npi i))))
        f_inf (range (depth s)).

(** [x <= y] on counters and on decimals, through the [<] the code
    uses. *)
Definition f_le (x y : float64) : Prop := f_ltb y x = false.

Definition d_le (a b : Decimal) : Prop := d_ltb b a = false.

(** What the theorem asks of the counters' arithmetic: [<=] is a
    preorder below [inf], addition is monotone, adding a non-negative
    amount does not decrease a counter, and [Decimal(str(x))] keeps
    the order.  Exact arithmetic has these properties, and so has
    IEEE-754 round-to-nearest addition on the non-negative values. *)
Record cell_order_laws : Prop := {
  f_le_refl : forall x, f_le x x;
  f_le_trans : forall x y z, f_le x y -> f_le y z -> f_le x z;
  f_le_inf : forall x, f_le x f_inf;
  f_add_mono : forall x y a, f_le x y -> f_le (f_add x a) (f_add y a);
  f_add_infl : forall x a, f_le f_zero a -> f_le x (f_add x a);
  of_float_mono : forall x y, f_le x y -> d_le (of_float x) (of_float y)
}.

(** The amounts added under [npi], summed in call order in the
    counters' own arithmetic, starting from [b]. *)
Definition own_sum_from (b : float64) (npi : string) (evs : list (string * Decimal)) : float64 :=
  foldl (fun acc ev => if decide (ev.1 = npi) then f_add acc (to_float ev.2) else acc) b evs.

Definition own_sum := own_sum_from f_zero.

(** The keys of the entries in the bounded collection. *)
Definition tracked_keys t : gset string :=
  list_to_set ((fun r => provider_npi (deref (objects t) r)) <$> top_providers t).

(** What every method keeps true of the heap, the dictionary and the
    object store: the heap holds exactly the references the dictionary
    holds, each once; the dictionary files every object under its own
    key; and the heap never outgrows [k]. *)
Record tracker_inv t : Prop := {
  inv_perm : top_providers t ≡ₚ (map_to_list (provider_map t)).*2;
  inv_obj : forall npi r, provider_map t !! npi = Some r ->
            exists o, objects t !! r = Some o /\ provider_npi o = npi;
  inv_fresh : forall r, r ∈ top_providers t -> (r < next_ref t)%nat;
  inv_nodup : NoDup (top_providers t);
  inv_size : Z.of_nat (length (top_providers t)) <= Z.max 0 (k t)
}.

(** The tracker as [_update_top_k] finds it: the sketch has the claim,
    and the claim is counted. *)
Definition counted (npi : string) (sk : CountMinSketch) t : TopProvidersTracker :=
  set_sketch sk
    (set_claim_counts (<[npi := default 0 (claim_counts t !! npi) + 1]> (claim_counts t))
       (set_sketch sk t)).

(** No two distinct keys of [keys] share a column in any row of a
    [d] x [w] sketch. *)
Definition collision_free (w d : Z) (keys : list string) : Prop :=
  forall a b, a ∈ keys -> b ∈ keys -> a <> b ->
  forall i, (i < Z.to_nat d)%nat -> col w a i <> col w b i.

(** Every tracked entry caches the sketch's present estimate of its
    key, and every tracked key is one of [keys]. *)
Definition cache_fresh (keys : list string) t : Prop :=
  forall npi r, provider_map t !! npi = Some r ->
    npi ∈ keys
    /\ net_fee_total (deref (objects t) r) = of_float (min_cells (sketch t) npi).

End vocabulary.

(** A computation that leaves the object as it found it, whether it
    returns or raises. *)
Definition readonly {S A} (m : M S A) : Prop := forall s, (m s).1 = s.

(** The keys [verify_accuracy] reports, if it returned. *)
Definition discrepant_keys {R : Runtime} (r : result accuracy_stats) : list string :=
  match r with
  | Ok stats => disc_provider_npi <$> discrepancies stats
  | Raise _ => []
  end.

(** What a caller reads off [get_top_k()]: the providers and their
    totals and claim counts, in the order returned. *)
Definition top_k_view {R : Runtime} (t : TopProvidersTracker) : list (string * Decimal * Z) :=
  match get_top_k t with
  | (t', Ok l) =>
    (fun r => let o := deref (objects t') r in
              (provider_npi o, net_fee_total o, claim_count o)) <$> l
  | (_, Raise _) => []
  end.

Section descending.
Context {A K : Type} (lt : K -> K -> bool) (key : A -> K).

(** [a] may stand before [b] in descending order: [a] is not below [b]. *)
Definition not_below (a b : A) : Prop := lt (key a) (key b) = false.

End descending.

(** *** Concrete sketches and trackers

    Under the exact fixed-point runtime: *)

Definition sketch_4x2 : @CountMinSketch FixedPoint.runtime :=
  @Build_CountMinSketch FixedPoint.runtime 4 2
    [[Some 0; Some 0; Some 0; Some 0]; [Some 0; Some 0; Some 0; Some 0]]
    (Some 0) ["salt_0"; "salt_1"].

Definition three_adds : list (string * FixedPoint.cents) :=
  [("npi1", Some 10000); ("npi2", Some 20000); ("npi1", Some 5000)].

Definition fresh_tracker_1 : @TopProvidersTracker FixedPoint.runtime :=
  @Build_TopProvidersTracker FixedPoint.runtime 1 sketch_4x2 [] ∅ ∅ ∅ 0%nat.

Definition full_tracker_1 : @TopProvidersTracker FixedPoint.runtime :=
  @run_claims FixedPoint.runtime [("npi1", Some 10000)] fresh_tracker_1.

(** Under CPython's arithmetic: *)

Definition ten_tenths : list (string * CPython.decimal) :=
  replicate 10 ("npi1", CPython.DFin 1 (-1)).

Definition three_claims : list (string * CPython.decimal) :=
  [("npi1", CPython.DFin 10000 (-2)); ("npi2", CPython.DFin 15000 (-2));
   ("npi3", CPython.DFin 20000 (-2))].

Definition two_claims : list (string * CPython.decimal) :=
  [("npi1", CPython.DFin 10000 (-2)); ("npi2", CPython.DFin 5000 (-2))].

Definition test_claims : list (string * CPython.decimal) :=
  [("npi1", CPython.DFin 10000 (-2)); ("npi2", CPython.DFin 20000 (-2));
   ("npi3", CPython.DFin 15000 (-2)); ("npi1", CPython.DFin 5000 (-2));
   ("npi4", CPython.DFin 5000 (-2))].

(** Concrete sketches under CPython's arithmetic: a fresh 1 x 1 sketch
    and the sketch after one [add] to it. *)
Definition fresh_1x1 : @CountMinSketch CPython.runtime :=
  @Build_CountMinSketch CPython.runtime 1 1 [[PrimFloat.zero]] (CPython.DFin 0 (-2)) ["salt_0"].

Definition one_add (amount : CPython.decimal) : @CountMinSketch CPython.runtime :=
  (@add CPython.runtime "npi1" amount fresh_1x1).1.

Definition merged (base : @CountMinSketch CPython.runtime)
    (others : list (@CountMinSketch CPython.runtime)) : @CountMinSketch CPython.runtime :=
  foldl (fun s other => (@merge CPython.runtime other s).1) base others.

(** Whether the only counter of a 1 x 1 table is below
    0.60000000000000005. *)
Definition below_0_6 (tbl : list (list float)) : bool :=
  match tbl with
  | [[x]] => PrimFloat.ltb x (CPython.float_of_decimal (CPython.DFin 60000000000000005 (-17)))
  | _ => false
  end.

Definition fresh_tracker_2_1x1 : @TopProvidersTracker CPython.runtime :=
  @Build_TopProvidersTracker CPython.runtime 2 fresh_1x1 [] ∅ ∅ ∅ 0%nat.

(** *** Further vocabulary *)

Section vocabulary_of_the_sketch.
Context {R : Runtime}.

(** Two sketches of the same dimensions and salts whose tables have
    the same shape. *)
Definition same_shape (s s' : CountMinSketch) : Prop :=
  width s' = width s /\ depth s' = depth s /\ hash_salts s' = hash_salts s
  /\ length <$> table s' = length <$> table s.

(** A method that leaves the dimensions, the salts and the shape of the
    table as they were, whether it returns or raises. *)
Definition keeps_shape {A} (m : M CountMinSketch A) : Prop :=
  forall s, same_shape s (m s).1.

End vocabulary_of_the_sketch.

(** The number of claims made for [npi]. *)
Definition count_claims {A} (npi : string) (evs : list (string * A)) : Z :=
  Z.of_nat (length (filter (fun ev => ev.1 = npi) evs)).

Section vocabulary_of_the_tracker.
Context {R : Runtime}.

(** Every tracked entry carries the count the dictionary of counts
    holds for its key. *)
Definition counts_current (t : TopProvidersTracker) : Prop :=
  forall b r, provider_map t !! b = Some r ->
    claim_count (deref (objects t) r) = default 0 (claim_counts t !! b).

End vocabulary_of_the_tracker.

(** A finite decimal: not an infinity, not a NaN.  With finite amounts
    the decimal addition in [add] cannot raise in Python. *)
Definition is_finite (a : CPython.decimal) : Prop :=
  match a with CPython.DFin _ _ => True | _ => False end.

(** *** The heap invariant of [heapq] *)

(** [c] is the index of a child of the node at index [p]:
    [2*p + 1] or [2*p + 2]. *)
Definition child_of (c p : nat) : Prop := c = (2 * p + 1)%nat \/ c = (2 * p + 2)%nat.

(** The heap invariant of [heapq] from index [start] on: no element at
    an index [p >= start] has a child that is less than it
    ([heap[p] <= heap[2*p+1]] and [heap[p] <= heap[2*p+2]], read with
    [__lt__] alone as [heapq] does). *)
Definition heap_ordered_from {A} (lt : A -> A -> bool) (start : nat) (heap : list A) : Prop :=
  forall p c x y, (start <= p)%nat -> child_of c p ->
    heap !! p = Some x -> heap !! c = Some y -> lt y x = false.

(** The index [pos] lies in the subtree rooted at index [start]. *)
Inductive below (start : nat) : nat -> Prop :=
| below_root : below start start
| below_child p c : below start p -> child_of c p -> below start c.

(** A decimal that is a number: finite, or an infinity. *)
Definition is_number (a : CPython.decimal) : Prop := a <> CPython.DNaN.

(** The list of the tracker is a heap on the cached totals, and no
    cached total in it is a NaN. *)
Definition heap_inv (t : @TopProvidersTracker CPython.runtime) : Prop :=
  heap_ordered_from (ref_lt (objects t)) 0 (top_providers t)
  /\ Forall (fun r => is_number (net_fee_total (deref (objects t) r))) (top_providers t).

(** Reduces the method monad and the record accessors, and leaves
    [heapq]'s functions folded. *)
Ltac run_method :=
  cbn [bind ret get modify raise fst snd
       k sketch top_providers provider_map claim_counts objects next_ref
       set_sketch set_top_providers set_provider_map set_claim_counts set_objects
       setattr_net_fee_total setattr_claim_count heapify_top_providers
       heappush_top_providers new_ProviderNetFee track
       provider_npi net_fee_total claim_count].

(** * Properties

    ** [heapq] only rearranges the list it is given *)
Section heapq_perm.
Context {A : Type} (lt : A -> A -> bool).
Implicit Types (heap l : list A).

Lemma insert_cons_swap l (j : nat) (x y : A) :
  (j < length l)%nat -> x :: <[j := y]> l ≡ₚ y :: <[j := x]> l.
Proof.
  revert j. induction l as [|a l IH]; intros [|j] Hj; simpl in *; try lia.
  - apply perm_swap.
  - rewrite (perm_swap a x), (perm_swap a y). do 1 f_equiv. apply IH. lia.
Qed.

Lemma insert_swap l (i j : nat) (a b : A) :
  l !! i = Some a -> (j < length l)%nat ->
  <[i := b]> (<[j := a]> l) ≡ₚ <[j := b]> l.
Proof.
  revert i j. induction l as [|c l IH]; intros [|i] [|j] Hi Hj; simpl in *;
    try lia; simplify_eq; try done.
  - apply insert_cons_swap. lia.
  - rewrite insert_cons_swap by (eapply lookup_lt_Some; eauto).
    by rewrite list_insert_id.
  - f_equiv. apply IH; [done | lia].
Qed.

Lemma _siftdown_loop_perm fuel heap newitem startpos pos :
  (pos < length heap)%nat ->
  _siftdown_loop lt fuel heap newitem startpos pos ≡ₚ <[pos := newitem]> heap.
Proof.
  revert heap pos.
  induction fuel as [|fuel IH]; intros heap pos Hpos; cbn [_siftdown_loop]; [reflexivity|].
  case_decide; [|reflexivity].
  destruct (heap !! ((pos - 1) / 2)%nat) as [parent|] eqn:Hp; [|reflexivity].
  destruct (lt newitem parent); [|reflexivity].
  rewrite IH.
  - apply insert_swap; done.
  - rewrite length_insert. eapply lookup_lt_Some; eauto.
Qed.

Lemma _siftdown_perm heap startpos pos : _siftdown lt heap startpos pos ≡ₚ heap.
Proof.
  unfold _siftdown. destruct (heap !! pos) as [x|] eqn:Hx; [|reflexivity].
  rewrite _siftdown_loop_perm by (eapply lookup_lt_Some; eauto).
  by rewrite list_insert_id.
Qed.

Lemma _siftup_loop_perm fuel heap newitem pos childpos heap' leaf :
  (pos < length heap)%nat ->
  _siftup_loop lt fuel heap pos childpos = (heap', leaf) ->
  (leaf < length heap')%nat /\ <[leaf := newitem]> heap' ≡ₚ <[pos := newitem]> heap.
Proof.
  revert heap pos childpos. induction fuel as [|fuel IH]; intros heap pos childpos Hpos;
    cbn [_siftup_loop].
  { intros [= <- <-]. done. }
  case_decide; [|by intros [= <- <-]].
  set (c' := match heap !! childpos with
        | Some c => match heap !! (childpos + 1)%nat with
                    | Some r => if negb (lt c r) then (childpos + 1)%nat else childpos
                    | None => childpos end
        | None => childpos end).
  destruct (heap !! c') as [child|] eqn:Hc; [|by intros [= <- <-]].
  intros Hloop. apply IH in Hloop as [Hl Hperm].
  - split; [done|]. rewrite Hperm. apply insert_swap; done.
  - rewrite length_insert. eapply lookup_lt_Some; eauto.
Qed.

Lemma _siftup_perm heap pos : _siftup lt heap pos ≡ₚ heap.
Proof.
  unfold _siftup. destruct (heap !! pos) as [x|] eqn:Hx; [|reflexivity].
  destruct (_siftup_loop lt (length heap) heap pos (2 * pos + 1)) as [heap' leaf] eqn:Hl.
  eapply (_siftup_loop_perm _ _ x) in Hl as [? Hperm]; [|eapply lookup_lt_Some; eauto].
  rewrite _siftdown_perm, Hperm. by rewrite list_insert_id.
Qed.

Lemma heappush_perm heap item : heappush lt heap item ≡ₚ item :: heap.
Proof.
  unfold heappush. rewrite _siftdown_perm. by rewrite Permutation_app_comm.
Qed.

Lemma heappop_None heap : heappop lt heap = None <-> heap = [].
Proof.
  unfold heappop. destruct (reverse heap) as [|x r] eqn:Hr.
  - split; [intros _|done]. by apply (inj reverse).
  - split; [by destruct (reverse r)|]. intros ->. done.
Qed.

Lemma heappop_Some heap x heap' :
  heappop lt heap = Some (x, heap') -> head heap = Some x /\ heap ≡ₚ x :: heap'.
Proof.
  unfold heappop. destruct (reverse heap) as [|lastelt r] eqn:Hr; [done|].
  assert (heap = reverse r ++ [lastelt]) as ->.
  { apply (inj reverse). by rewrite Hr, reverse_snoc, reverse_involutive. }
  destruct (reverse r) as [|y l]; simpl.
  - intros [= <- <-]. done.
  - intros [= <- <-]. split; [done|].
    rewrite _siftup_perm. simpl. f_equiv.
    symmetry. apply Permutation_cons_append.
Qed.

Lemma heapify_perm x : heapify lt x ≡ₚ x.
Proof.
  unfold heapify. generalize (reverse (seq 0 (length x / 2))). intros idx.
  revert x. induction idx as [|i idx IH]; intros x; simpl; [done|].
  rewrite IH. apply _siftup_perm.
Qed.

End heapq_perm.

(** ** The sketch: shape, hashing and what [add] writes *)
Section sketch_facts.
Context {R : Runtime}.
Implicit Types (s : CountMinSketch) (tbl : list (list float64)).

Lemma CountMinSketch_init_wf w d s :
  0 < w -> CountMinSketch_init w d = Ok s -> wf_sketch s.
Proof.
  unfold CountMinSketch_init, np_zeros. intros Hw.
  case_decide; [done|]. intros [= <-]. split; simpl; try done.
  - by rewrite length_replicate.
  - apply Forall_replicate. by rewrite length_replicate.
Qed.

Lemma CountMinSketch_init_cell w d s i j x :
  CountMinSketch_init w d = Ok s -> cell (table s) i j = Some x -> x = f_zero.
Proof.
  unfold CountMinSketch_init, np_zeros, cell.
  case_decide; [done|]. intros [= <-]; simpl.
  destruct (replicate _ _ !! i) as [row|] eqn:Hrow; [|done].
  apply lookup_replicate in Hrow as [-> _].
  intros [-> _]%lookup_replicate. done.
Qed.

Lemma col_lt w npi i : 0 < w -> (col w npi i < Z.to_nat w)%nat.
Proof. intros. unfold col. pose proof (Z.mod_pos_bound (sha256_int (salt i +:+ ":" +:+ npi)) w). lia. Qed.

Lemma wf_cell_is_Some s i j :
  wf_sketch s -> (i < Z.to_nat (depth s))%nat -> (j < Z.to_nat (width s))%nat ->
  is_Some (cell (table s) i j).
Proof.
  intros [Hw Hr Hc _] Hi Hj. unfold cell.
  destruct (lookup_lt_is_Some_2 (table s) i) as [row Hrow]; [lia|].
  rewrite Hrow. apply lookup_lt_is_Some_2.
  rewrite Forall_forall in Hc. rewrite (Hc row); [done|].
  eapply list_elem_of_lookup_2; eauto.
Qed.

Lemma _hash_ok s npi i :
  wf_sketch s -> (i < Z.to_nat (depth s))%nat ->
  _hash npi i s = (s, Ok (Z.of_nat (col (width s) npi i))).
Proof.
  intros Hwf Hi. unfold _hash, bind, get.
  rewrite (wf_salts _ Hwf). unfold range.
  rewrite list_lookup_fmap, lookup_seq_lt by done. simpl.
  pose proof (wf_width _ Hwf).
  case_decide; [lia|]. unfold ret, col.
  pose proof (Z.mod_pos_bound (sha256_int (salt i +:+ ":" +:+ npi)) (width s)).
  rewrite Z2Nat.id by lia. done.
Qed.

Lemma py_index_nat n (j : nat) : (j < n)%nat -> py_index n (Z.of_nat j) = Some j.
Proof.
  intros. unfold py_index. case_decide; [|lia]. by rewrite Nat2Z.id.
Qed.

Lemma table_get_ok s i j x :
  cell (table s) i j = Some x -> table_get i (Z.of_nat j) s = (s, Ok x).
Proof.
  unfold cell, table_get, bind, get. destruct (table s !! i) as [row|]; [|done].
  intros Hx. rewrite py_index_nat by (eapply lookup_lt_Some; eauto).
  by rewrite Hx.
Qed.

Lemma table_iadd_ok s i j row c x :
  table s !! i = Some row -> row !! j = Some c ->
  table_iadd i (Z.of_nat j) x s =
    (set_table (<[i := <[j := f_add c x]> row]> (table s)) s, Ok tt).
Proof.
  unfold table_iadd, bind, get. intros -> Hc.
  rewrite py_index_nat by (eapply lookup_lt_Some; eauto).
  by rewrite Hc.
Qed.

Lemma cell_insert tbl i0 j0 row v i j :
  tbl !! i0 = Some row -> (j0 < length row)%nat ->
  cell (<[i0 := <[j0 := v]> row]> tbl) i j =
    if decide (i = i0 /\ j = j0) then Some v else cell tbl i j.
Proof.
  intros Hrow Hj. unfold cell.
  destruct (decide (i = i0)) as [->|Hne].
  - rewrite list_lookup_insert_eq by (eapply lookup_lt_Some; eauto).
    rewrite Hrow. destruct (decide (j = j0)) as [->|].
    + rewrite list_lookup_insert_eq by done. by rewrite decide_True.
    + rewrite list_lookup_insert_ne by done. rewrite decide_False; [done|]. by intros [_ ?].
  - rewrite list_lookup_insert_ne by done. rewrite decide_False; [done|]. by intros [? _].
Qed.

Lemma wf_set_table s tbl :
  wf_sketch s -> length tbl = length (table s) ->
  Forall (fun row => length row = Z.to_nat (width s)) tbl ->
  wf_sketch (set_table tbl s).
Proof.
  intros [? Hr ? ?] Hl Hc. split; simpl; try done. by rewrite Hl.
Qed.

(** The loop of [add] over the rows [l]: every row of [l] gets [x]
    added in the column of [npi], nothing else changes. *)
Lemma add_loop_spec l s npi x :
  wf_sketch s -> NoDup l -> (forall i, i ∈ l -> (i < Z.to_nat (depth s))%nat) ->
  exists tbl',
    for_each l (fun i => let! j := _hash npi i in table_iadd i j x) s
      = (set_table tbl' s, Ok tt)
    /\ wf_sketch (set_table tbl' s)
    /\ forall i j, cell tbl' i j =
         (fun c => if decide (i ∈ l /\ j = col (width s) npi i) then f_add c x else c)
           <$> cell (table s) i j.
Proof.
  intros Hwf Hnd. revert s Hwf.
  induction Hnd as [|i0 l Hi0 Hnd IH]; intros s Hwf Hl.
  - exists (table s). simpl. unfold ret. split_and!.
    + by destruct s.
    + by destruct s.
    + intros i j. destruct (cell (table s) i j); [|done].
      done.
  - assert (i0 < Z.to_nat (depth s))%nat as Hi0d by (apply Hl; set_solver).
    pose proof (col_lt (width s) npi i0 (wf_width _ Hwf)) as Hcol.
    destruct (wf_cell_is_Some s i0 (col (width s) npi i0) Hwf Hi0d Hcol) as [c Hc].
    unfold cell in Hc. destruct (table s !! i0) as [row|] eqn:Hrow; [|done].
    set (s1 := set_table (<[i0 := <[col (width s) npi i0 := f_add c x]> row]> (table s)) s).
    assert (wf_sketch s1) as Hwf1.
    { apply wf_set_table; [done|by rewrite length_insert|].
      pose proof (wf_cols _ Hwf) as Hcs. apply Forall_insert; [done|].
      rewrite length_insert. rewrite Forall_forall in Hcs. apply Hcs.
      eapply list_elem_of_lookup_2; eauto. }
    destruct (IH s1 Hwf1) as (tbl' & Hrun & Hwf' & Hcell).
    { intros i Hi. simpl. apply Hl. set_solver. }
    exists tbl'. split_and!.
    + cbn [for_each]. unfold bind at 1. unfold bind at 1.
      rewrite _hash_ok by done.
      rewrite (table_iadd_ok _ _ _ row c) by done. fold s1.
      rewrite Hrun. by destruct s.
    + by destruct s.
    + intros i j. rewrite Hcell. subst s1. cbn [table set_table width].
      rewrite cell_insert by (done || by eapply lookup_lt_Some).
      destruct (decide (i = i0 /\ j = col (width s) npi i0)) as [[-> ->]|Hne].
      * unfold cell. rewrite Hrow, Hc. cbn [fmap option_fmap option_map].
        rewrite decide_False by (intros [? _]; done).
        rewrite decide_True; [done|]. split; [set_solver|done].
      * destruct (cell (table s) i j); [|done].
        cbn [fmap option_fmap option_map]. f_equal.
        destruct (decide (i ∈ l /\ j = col (width s) npi i)) as [[? ?]|Hn].
        -- rewrite decide_True; [done|]. split; [set_solver|done].
        -- rewrite decide_False; [done|]. intros [Hin ?]. apply Hn. split; [|done].
           apply elem_of_cons in Hin as [->|?]; [|done]. exfalso. by apply Hne.
Qed.

(** [add] on a well-formed sketch, for any amount: it returns, adds
    [float(net_fee)] to the counter of [npi] in every row and
    [net_fee] to [total_sum], and changes nothing else. *)
Lemma add_ok s npi a :
  wf_sketch s ->
  exists tbl',
    add npi a s = (set_total_sum (d_add (total_sum s) a) (set_table tbl' s), Ok tt)
    /\ wf_sketch (set_total_sum (d_add (total_sum s) a) (set_table tbl' s))
    /\ forall i j, cell tbl' i j =
         (fun c => if decide (j = col (width s) npi i) then f_add c (to_float a) else c)
           <$> cell (table s) i j.
Proof.
  intros Hwf.
  destruct (add_loop_spec (range (depth s)) s npi (to_float a) Hwf)
    as (tbl' & Hrun & Hwf' & Hcell).
  { apply NoDup_seq. }
  { intros i Hi%elem_of_seq. lia. }
  exists tbl'. split_and!.
  - unfold add. unfold bind at 1. unfold get. cbv beta iota.
    unfold bind at 1. rewrite Hrun. done.
  - destruct Hwf'. by split.
  - intros i j. rewrite Hcell.
    destruct (cell (table s) i j) as [c|] eqn:Hc; [|done].
    cbn [fmap option_fmap option_map]. f_equal.
    assert (i ∈ range (depth s)).
    { unfold cell in Hc. destruct (table s !! i) eqn:Hrow; [|done].
      apply lookup_lt_Some in Hrow. rewrite (wf_rows _ Hwf) in Hrow.
      apply elem_of_seq. lia. }
    destruct (decide (j = col (width s) npi i)).
    + by rewrite decide_True.
    + rewrite decide_False; [done|]. by intros [_ ?].
Qed.

Lemma min_estimate_loop l acc s npi :
  wf_sketch s -> (forall i, i ∈ l -> (i < Z.to_nat (depth s))%nat) ->
  for_fold l acc (fun i min_estimate =>
      let! j := _hash npi i in
      let! c := table_get i j in
      ret (py_min min_estimate c)) s
  = (s, Ok (foldl (fun m i =>
               py_min m (default f_zero (cell (table s) i (col (width s) npi i)))) acc l)).
Proof.
  intros Hwf. revert acc. induction l as [|i l IH]; intros acc Hl; [done|].
  assert (i < Z.to_nat (depth s))%nat as Hi by (apply Hl; set_solver).
  destruct (wf_cell_is_Some s i (col (width s) npi i) Hwf Hi) as [c Hc].
  { apply col_lt, Hwf. }
  cbn [for_fold foldl]. unfold bind at 1. unfold bind at 1.
  rewrite _hash_ok by done. unfold bind at 1.
  rewrite (table_get_ok _ _ _ c) by done. unfold ret at 1.
  rewrite IH by (intros; apply Hl; set_solver). by rewrite Hc.
Qed.

Lemma min_estimate_ok s npi :
  wf_sketch s -> min_estimate npi s = (s, Ok (min_cells s npi)).
Proof.
  intros Hwf. unfold min_estimate. unfold bind at 1. unfold get. cbv beta iota.
  rewrite min_estimate_loop; [done..|]. intros i Hi%elem_of_seq. lia.
Qed.

Lemma estimate_ok s npi :
  wf_sketch s -> estimate npi s = (s, Ok (of_float (min_cells s npi))).
Proof.
  intros Hwf. unfold estimate, bind. by rewrite min_estimate_ok.
Qed.

End sketch_facts.

(** ** Non-undercount (C1) *)
Section non_undercount.
Context {R : Runtime}.
Implicit Types (s : CountMinSketch).

Lemma run_adds_lower_bound (L : cell_order_laws) npi evs s b :
  wf_sketch s ->
  Forall (fun ev => f_le f_zero (to_float ev.2)) evs ->
  (forall i c, cell (table s) i (col (width s) npi i) = Some c -> f_le b c) ->
  wf_sketch (run_adds evs s)
  /\ forall i c, cell (table (run_adds evs s)) i (col (width (run_adds evs s)) npi i) = Some c ->
       f_le (own_sum_from b npi evs) c.
Proof.
  intros Hwf Hnn. revert s b Hwf.
  induction Hnn as [|[npi' a] evs Ha Hnn IH]; intros s b Hwf Hb; [done|].
  destruct (add_ok s npi' a Hwf) as (tbl' & Hadd & Hwf' & Hcell).
  cbn [run_adds foldl fst snd] in *. fold (run_adds evs) in *.
  rewrite Hadd. cbn [fst].
  apply IH; [done|]. cbn [width table set_total_sum set_table].
  intros i c. rewrite Hcell.
  destruct (cell (table s) i (col (width s) npi i)) as [c0|] eqn:Hc0; [|done].
  cbn [fmap option_fmap option_map]. intros [= <-].
  specialize (Hb i c0 Hc0).
  cbn [fst snd]. destruct (decide (npi' = npi)) as [->|Hne].
  - rewrite decide_True by done. by apply f_add_mono.
  - case_decide; [|done].
    eapply f_le_trans; [done|exact Hb|]. by apply f_add_infl.
Qed.

Lemma min_cells_lower_bound (L : cell_order_laws) s npi b :
  wf_sketch s ->
  (forall i c, cell (table s) i (col (width s) npi i) = Some c -> f_le b c) ->
  f_le b (min_cells s npi).
Proof.
  intros Hwf Hb. unfold min_cells.
  assert (forall i, i ∈ range (depth s) -> (i < Z.to_nat (depth s))%nat) as Hl.
  { intros i Hi%elem_of_seq. lia. }
  assert (f_le b f_inf) as Hacc by apply L.
  revert Hl Hacc. generalize f_inf. induction (range (depth s)) as [|i l IH];
    intros acc Hl Hacc; [exact Hacc|].
  cbn [foldl]. apply IH; [intros; apply Hl; set_solver|].
  destruct (wf_cell_is_Some s i (col (width s) npi i) Hwf) as [c Hc].
  { apply Hl. set_solver. }
  { apply col_lt, Hwf. }
  rewrite Hc. change (default f_zero (Some c)) with c.
  unfold py_min. destruct (f_ltb c acc); [by eapply Hb|exact Hacc].
Qed.


End non_undercount.

Lemma FixedPoint_order_laws : @cell_order_laws FixedPoint.runtime.
Proof.
  split; unfold f_le, d_le; cbn.
  - intros [x|]; cbn; [lia|done].
  - intros [x|] [y|] [z|]; cbn; try done; lia.
  - intros [x|]; done.
  - intros [x|] [y|] [a|]; cbn; try done; lia.
  - intros [x|] [a|]; cbn; try done; lia.
  - done.
Qed.



(** ** The tracker: heap and index stay in step (C4) *)

Section tracker_facts.
Context {R : Runtime}.
Implicit Types (t : TopProvidersTracker).

Lemma deref_Some objs r o : objs !! r = Some o -> deref objs r = o.
Proof. unfold deref. by intros ->. Qed.

Lemma deref_insert_eq objs r o : deref (<[r := o]> objs) r = o.
Proof. apply deref_Some, lookup_insert_eq. Qed.

Lemma on_sketch_run {A} (m : M CountMinSketch A) t :
  on_sketch m t = (set_sketch (m (sketch t)).1 t, (m (sketch t)).2).
Proof. unfold on_sketch. by destruct (m (sketch t)). Qed.

Lemma tracker_inv_set_sketch sk t : tracker_inv t -> tracker_inv (set_sketch sk t).
Proof. intros []. by split. Qed.

Lemma tracker_inv_set_claim_counts c t : tracker_inv t -> tracker_inv (set_claim_counts c t).
Proof. intros []. by split. Qed.

Lemma inv_heap_in_map t r :
  tracker_inv t -> r ∈ top_providers t ->
  exists o, objects t !! r = Some o /\ provider_map t !! provider_npi o = Some r.
Proof.
  intros Hinv Hr. rewrite (inv_perm _ Hinv) in Hr.
  apply list_elem_of_fmap in Hr as ([npi r'] & -> & Hin).
  apply elem_of_map_to_list in Hin. simpl.
  destruct (inv_obj _ Hinv _ _ Hin) as (o & Ho & <-). eauto.
Qed.

(** Admitting a new key: the two admitting branches of [_update_top_k]. *)
Lemma track_inv npi total t :
  tracker_inv t -> provider_map t !! npi = None ->
  Z.of_nat (length (top_providers t)) < Z.max 0 (k t) ->
  exists t', track npi total t = (t', Ok tt) /\ tracker_inv t'
    /\ provider_map t' = <[npi := next_ref t]> (provider_map t)
    /\ objects t' = <[next_ref t := {| provider_npi := npi; net_fee_total := total;
                                       claim_count := default 0 (claim_counts t !! npi) |}]>
                      (objects t)
    /\ sketch t' = sketch t /\ claim_counts t' = claim_counts t /\ k t' = k t.
Proof.
  intros Hinv Hnone Hlen. eexists. split; [reflexivity|].
  run_method. split_and!; try done. split; run_method.
  - rewrite heappush_perm, map_to_list_insert by done. cbn. f_equiv. apply Hinv.
  - intros npi' r. destruct (decide (npi' = npi)) as [->|Hne].
    + rewrite lookup_insert_eq. intros [= <-]. rewrite lookup_insert_eq. eauto.
    + rewrite lookup_insert_ne by done. intros Hr.
      destruct (inv_obj _ Hinv _ _ Hr) as (o & Ho & Hnpi).
      exists o. split; [|done]. rewrite lookup_insert_ne; [done|].
      intros <-. assert (next_ref t ∈ top_providers t) as Hin.
      { rewrite (inv_perm _ Hinv). apply list_elem_of_fmap.
        exists (npi', next_ref t). split; [done|]. by apply elem_of_map_to_list. }
      apply (inv_fresh _ Hinv) in Hin. lia.
  - intros r. rewrite heappush_perm. intros [->|Hin]%elem_of_cons; [lia|].
    apply (inv_fresh _ Hinv) in Hin. lia.
  - rewrite heappush_perm. apply NoDup_cons. split; [|apply Hinv].
    intros Hin%(inv_fresh _ Hinv). lia.
  - rewrite heappush_perm. cbn [length]. lia.
Qed.

(** The key is tracked already: its object is updated in place through
    the dictionary's reference and the heap is rebuilt. *)
Lemma _update_top_k_tracked npi total t r :
  tracker_inv t -> provider_map t !! npi = Some r ->
  exists t', _update_top_k npi total t = (t', Ok tt) /\ tracker_inv t'
    /\ provider_map t' = provider_map t
    /\ objects t' !! r = Some {| provider_npi := npi; net_fee_total := total;
                                 claim_count := default 0 (claim_counts t !! npi) |}
    /\ (forall r', r' <> r -> objects t' !! r' = objects t !! r')
    /\ sketch t' = sketch t /\ claim_counts t' = claim_counts t /\ k t' = k t.
Proof.
  intros Hinv Hr. destruct (inv_obj _ Hinv _ _ Hr) as (o & Ho & Hnpi).
  eexists. split.
  { unfold _update_top_k. unfold bind at 1. unfold get. cbv beta iota.
    rewrite Hr. reflexivity. }
  assert (deref (objects t) r = o) as Hd by (unfold deref; by rewrite Ho).
  run_method. rewrite Hd, !deref_insert_eq. run_method.
  rewrite Hnpi. split_and!; try done.
  - split; run_method.
    + rewrite heapify_perm. apply Hinv.
    + intros npi' r' Hr'. destruct (decide (r' = r)) as [->|Hne].
      * rewrite lookup_insert_eq. eexists. split; [done|]. run_method.
        destruct (inv_obj _ Hinv _ _ Hr') as (o' & Ho' & Hnpi'). congruence.
      * rewrite !lookup_insert_ne by done. by apply (inv_obj _ Hinv).
    + intros r'. rewrite heapify_perm. apply Hinv.
    + rewrite heapify_perm. apply Hinv.
    + rewrite heapify_perm. apply Hinv.
  - by rewrite lookup_insert_eq.
  - intros r' Hne. by rewrite !lookup_insert_ne.
Qed.

(** The key is new and the heap has room. *)
Lemma _update_top_k_room npi total t :
  provider_map t !! npi = None ->
  Z.of_nat (length (top_providers t)) < k t ->
  _update_top_k npi total t = track npi total t.
Proof.
  intros Hnone Hlen. unfold _update_top_k. unfold bind at 1. unfold get. cbv beta iota.
  rewrite Hnone. by rewrite decide_True.
Qed.

(** The key is new, the heap is full, and the estimate is not above the
    root's: nothing happens. *)
Lemma _update_top_k_keep npi total t root rest :
  provider_map t !! npi = None ->
  k t <= Z.of_nat (length (top_providers t)) ->
  top_providers t = root :: rest ->
  d_ltb (net_fee_total (deref (objects t) root)) total = false ->
  _update_top_k npi total t = (t, Ok tt).
Proof.
  intros Hnone Hlen Hheap Hle. unfold _update_top_k. unfold bind at 1. unfold get.
  cbv beta iota. rewrite Hnone. rewrite decide_False by lia.
  rewrite Hheap, Hle. done.
Qed.

(** The key is new, the heap is full, and the estimate is above the
    root's: the root is popped, leaves the dictionary, and the key is
    admitted. *)
Lemma _update_top_k_evict npi total t root rest :
  tracker_inv t ->
  provider_map t !! npi = None ->
  k t <= Z.of_nat (length (top_providers t)) ->
  top_providers t = root :: rest ->
  d_ltb (net_fee_total (deref (objects t) root)) total = true ->
  exists t', _update_top_k npi total t = (t', Ok tt) /\ tracker_inv t'
    /\ provider_map t' =
         <[npi := next_ref t]> (delete (provider_npi (deref (objects t) root)) (provider_map t))
    /\ objects t' = <[next_ref t := {| provider_npi := npi; net_fee_total := total;
                                       claim_count := default 0 (claim_counts t !! npi) |}]>
                      (objects t)
    /\ sketch t' = sketch t /\ claim_counts t' = claim_counts t /\ k t' = k t.
Proof.
  intros Hinv Hnone Hlen Hheap Hlt.
  destruct (heappop (ref_lt (objects t)) (top_providers t)) as [[removed h']|] eqn:Hpop.
  2:{ apply heappop_None in Hpop. congruence. }
  destruct (heappop_Some _ _ _ _ Hpop) as [Hhd Hperm].
  rewrite Hheap in Hhd. injection Hhd as <-.
  destruct (inv_heap_in_map t root Hinv) as (o & Ho & Hmap).
  { rewrite Hheap. set_solver. }
  assert (deref (objects t) root = o) as Hd by (unfold deref; by rewrite Ho).
  set (t2 := set_provider_map (delete (provider_npi o) (provider_map t))
               (set_top_providers h' t)).
  assert (tracker_inv t2) as Hinv2.
  { split; cbn.
    - pose proof (map_to_list_delete _ _ _ Hmap) as Hdel.
      pose proof (inv_perm _ Hinv) as Hp. rewrite <-Hdel, Hperm in Hp. cbn in Hp.
      by apply Permutation_cons_inv in Hp.
    - intros npi' r Hr. apply lookup_delete_Some in Hr as [_ Hr].
      by apply (inv_obj _ Hinv).
    - intros r Hr. apply (inv_fresh _ Hinv). rewrite Hperm. set_solver.
    - pose proof (inv_nodup _ Hinv) as Hnd. rewrite Hperm in Hnd.
      by apply NoDup_cons in Hnd as [_ ?].
    - pose proof (inv_size _ Hinv) as Hs. rewrite Hperm in Hs. cbn [length] in Hs. lia. }
  destruct (track_inv npi total t2 Hinv2)
    as (t' & Htrack & Hinv' & Hmap' & Hobj & Hsk & Hcc & Hk).
  { cbn. by rewrite lookup_delete_ne by congruence. }
  { cbn. pose proof (inv_size _ Hinv) as Hs. rewrite Hperm in Hs. cbn [length] in Hs. lia. }
  exists t'. split.
  { unfold _update_top_k. unfold bind at 1. unfold get. cbv beta iota.
    rewrite Hnone. rewrite decide_False by lia. rewrite Hheap, Hlt.
    unfold bind at 1. unfold heappop_top_providers. unfold bind at 1. unfold get.
    cbv beta iota. rewrite Hpop. unfold bind at 1. cbn [modify].
    cbv beta iota. unfold ret at 1. cbv beta iota.
    unfold bind at 1. unfold del_provider_map. unfold bind at 1. unfold get.
    cbv beta iota. cbn [provider_map set_top_providers].
    rewrite Hd, Hmap. cbn [modify]. cbv beta iota. fold t2.
    exact Htrack. }
  rewrite Hd. by split_and!.
Qed.

Lemma _update_top_k_inv npi total t :
  tracker_inv t ->
  tracker_inv (_update_top_k npi total t).1 /\ k (_update_top_k npi total t).1 = k t.
Proof.
  intros Hinv. destruct (provider_map t !! npi) as [r|] eqn:Hmap.
  { destruct (_update_top_k_tracked npi total t r Hinv Hmap)
      as (t' & -> & ? & _ & _ & _ & _ & _ & ?). by split. }
  destruct (decide (Z.of_nat (length (top_providers t)) < k t)) as [Hlen|Hlen].
  { rewrite _update_top_k_room by done.
    destruct (track_inv npi total t Hinv Hmap) as (t' & -> & ? & _ & _ & _ & _ & ?);
      [lia|by split]. }
  destruct (top_providers t) as [|root rest] eqn:Hheap.
  { assert (_update_top_k npi total t = (t, Raise IndexError)) as ->; [|by split].
    unfold _update_top_k. unfold bind at 1. unfold get. cbv beta iota.
    by rewrite Hmap, Hheap, decide_False. }
  destruct (d_ltb (net_fee_total (deref (objects t) root)) total) eqn:Hlt.
  - destruct (_update_top_k_evict npi total t root rest Hinv Hmap)
      as (t' & -> & ? & _ & _ & _ & _ & ?); [rewrite Hheap; lia|done..|by split].
  - rewrite (_update_top_k_keep npi total t root rest);
      [by split|done|rewrite Hheap; lia|done..].
Qed.

Lemma add_claim_inv npi a t :
  tracker_inv t ->
  tracker_inv (add_claim npi a t).1 /\ k (add_claim npi a t).1 = k t.
Proof.
  intros Hinv. pose (P := fun t' => tracker_inv t' /\ k t' = k t).
  change (P (add_claim npi a t).1).
  assert (forall sk t', P t' -> P (set_sketch sk t')) as Hsk.
  { intros sk t' [? ?]. split; [by apply tracker_inv_set_sketch|done]. }
  unfold add_claim. unfold bind at 1. rewrite on_sketch_run.
  destruct (add npi a (sketch t)).2.
  2:{ apply Hsk. by split. }
  unfold bind at 1. cbn [modify]. unfold bind at 1. rewrite on_sketch_run.
  set (t2 := set_claim_counts _ _).
  assert (P t2) as Ht2.
  { split; [|done]. by apply tracker_inv_set_claim_counts, tracker_inv_set_sketch. }
  destruct (estimate npi (sketch t2)).2 as [total|].
  2:{ by apply Hsk. }
  destruct (Hsk (estimate npi (sketch t2)).1 t2 Ht2) as [Hinv3 Hk3].
  destruct (_update_top_k_inv npi total _ Hinv3) as [? Hk4].
  split; [done|]. by rewrite Hk4.
Qed.

Lemma run_claims_inv evs t :
  tracker_inv t ->
  tracker_inv (run_claims evs t) /\ k (run_claims evs t) = k t.
Proof.
  revert t. induction evs as [|[npi a] evs IH]; intros t Hinv; [done|].
  cbn [run_claims foldl fst snd]. fold (run_claims evs).
  destruct (add_claim_inv npi a t Hinv) as [Hinv' <-]. by apply IH.
Qed.

Lemma TopProvidersTracker_init_inv k0 w d t0 :
  TopProvidersTracker_init k0 w d = Ok t0 -> tracker_inv t0 /\ k t0 = k0.
Proof.
  unfold TopProvidersTracker_init. destruct (CountMinSketch_init w d); [|done].
  intros [= <-]. split; [|done]. split; cbn.
  - by rewrite map_to_list_empty.
  - intros npi r. by rewrite lookup_empty.
  - intros r Hr. by apply not_elem_of_nil in Hr.
  - constructor.
  - lia.
Qed.

Lemma tracker_inv_keys t : tracker_inv t -> tracked_keys t = dom (provider_map t).
Proof.
  intros Hinv. apply set_eq. intros npi. unfold tracked_keys.
  rewrite elem_of_list_to_set, list_elem_of_fmap, elem_of_dom. split.
  - intros (r & -> & Hr). destruct (inv_heap_in_map t r Hinv Hr) as (o & Ho & Hmap).
    rewrite (deref_Some _ _ _ Ho). eauto.
  - intros [r Hr]. exists r. destruct (inv_obj _ Hinv _ _ Hr) as (o & Ho & <-).
    split; [by rewrite (deref_Some _ _ _ Ho)|].
    rewrite (inv_perm _ Hinv). apply list_elem_of_fmap. exists (provider_npi o, r).
    split; [done|]. by apply elem_of_map_to_list.
Qed.

Lemma tracker_inv_length t :
  tracker_inv t -> length (top_providers t) = size (provider_map t).
Proof.
  intros Hinv. rewrite (inv_perm _ Hinv), length_fmap. apply length_map_to_list.
Qed.

(** C4.  In every state reached from a freshly built tracker of
    capacity [k >= 0] by [add_claim] calls (each run to its end, whether
    it returned or raised), the entries of the heap and the dictionary
    have the same key set, the two have the same size, and that size is
    at most [k]. *)
Theorem heap_and_index_agree (k0 w d : Z) t0 evs :
  0 <= k0 ->
  TopProvidersTracker_init k0 w d = Ok t0 ->
  tracked_keys (run_claims evs t0) = dom (provider_map (run_claims evs t0))
  /\ length (top_providers (run_claims evs t0)) = size (provider_map (run_claims evs t0))
  /\ Z.of_nat (length (top_providers (run_claims evs t0))) <= k0.
Proof.
  intros Hk Hinit. destruct (TopProvidersTracker_init_inv _ _ _ _ Hinit) as [Hinv0 Hk0].
  destruct (run_claims_inv evs t0 Hinv0) as [Hinv Hkk].
  split_and!.
  - by apply tracker_inv_keys.
  - by apply tracker_inv_length.
  - pose proof (inv_size _ Hinv). lia.
Qed.

End tracker_facts.

Lemma heap_and_index_agree_witness :
  exists t0,
    @TopProvidersTracker_init CPython.runtime 2 8 3 = Ok t0
    /\ @tracked_keys CPython.runtime (@run_claims CPython.runtime three_claims t0)
       = dom (provider_map (@run_claims CPython.runtime three_claims t0))
    /\ length (top_providers (@run_claims CPython.runtime three_claims t0))
       = size (provider_map (@run_claims CPython.runtime three_claims t0))
    /\ Z.of_nat (length (top_providers (@run_claims CPython.runtime three_claims t0))) <= 2.
Proof.
  eexists. split; [reflexivity|].
  apply (@heap_and_index_agree CPython.runtime 2 8 3); [lia|reflexivity].
Defined.

(** ** Methods that only read *)
Section readonly.
Context {R : Runtime}.

Lemma readonly_ret {S A} (a : A) : readonly (S := S) (ret a).
Proof. done. Qed.

Lemma readonly_raise {S A} e : readonly (S := S) (A := A) (raise e).
Proof. done. Qed.

Lemma readonly_get {S} : readonly (S := S) get.
Proof. done. Qed.

Lemma readonly_bind {S A B} (m : M S A) (f : A -> M S B) :
  readonly m -> (forall a, readonly (f a)) -> readonly (bind m f).
Proof.
  intros Hm Hf s. unfold bind. specialize (Hm s).
  destruct (m s) as [s' [a|e]]; cbn in *; subst; [apply Hf|done].
Qed.

Lemma readonly_for_fold {S A B} (l : list A) (acc : B) (body : A -> B -> M S B) :
  (forall x b, readonly (body x b)) -> readonly (for_fold l acc body).
Proof.
  intros Hbody. revert acc. induction l as [|x l IH]; intros acc; cbn [for_fold].
  - apply readonly_ret.
  - apply readonly_bind; [apply Hbody|apply IH].
Qed.

Lemma readonly__hash npi i : readonly (_hash npi i).
Proof.
  apply readonly_bind; [apply readonly_get|]. intros self.
  destruct (hash_salts self !! i); [|apply readonly_raise].
  case_decide; [apply readonly_raise|apply readonly_ret].
Qed.

Lemma readonly_table_get i j : readonly (table_get i j).
Proof.
  apply readonly_bind; [apply readonly_get|]. intros self.
  destruct (table self !! i) as [row|]; [|apply readonly_raise].
  destruct (py_index (length row) j) as [j'|]; [|apply readonly_raise].
  destruct (row !! j'); [apply readonly_ret|apply readonly_raise].
Qed.

Lemma readonly_estimate npi : readonly (estimate npi).
Proof.
  apply readonly_bind; [|intros; apply readonly_ret].
  apply readonly_bind; [apply readonly_get|]. intros self.
  apply readonly_for_fold. intros i m.
  apply readonly_bind; [apply readonly__hash|]. intros j.
  apply readonly_bind; [apply readonly_table_get|]. intros c. apply readonly_ret.
Qed.

Lemma readonly_error_estimate : readonly error_estimate.
Proof.
  apply readonly_bind; [apply readonly_get|]. intros self.
  case_decide; [apply readonly_raise|apply readonly_ret].
Qed.

Lemma readonly_on_sketch {A} (m : M CountMinSketch A) : readonly m -> readonly (on_sketch m).
Proof.
  intros Hm t. rewrite on_sketch_run. cbn [fst]. rewrite Hm. by destruct t.
Qed.

Lemma readonly_get_top_k : readonly get_top_k.
Proof. apply readonly_bind; [apply readonly_get|]. intros. apply readonly_ret. Qed.

Lemma readonly_verify_accuracy : readonly verify_accuracy.
Proof.
  apply readonly_bind; [apply readonly_get|]. intros self.
  apply readonly_bind; [apply readonly_on_sketch, readonly_error_estimate|]. intros e.
  apply readonly_bind; [|intros; apply readonly_ret].
  apply readonly_for_fold. intros provider found.
  apply readonly_bind; [apply readonly_get|]. intros self'.
  apply readonly_bind; [apply readonly_on_sketch, readonly_estimate|]. intros est.
  destruct (d_ltb _ _); apply readonly_ret.
Qed.

(** C10.  [get_top_k] and [verify_accuracy] leave the tracker exactly
    as it was (sketch table and total, heap, dictionary, claim counts,
    and the objects), whether they return or raise. *)
Theorem queries_are_pure (t : TopProvidersTracker) :
  (get_top_k t).1 = t /\ (verify_accuracy t).1 = t.
Proof. split; [apply readonly_get_top_k|apply readonly_verify_accuracy]. Qed.

End readonly.

(** ** Construction and [merge] (C5, C7, C8) *)
Section sketch_claims.
Context {R : Runtime}.
Implicit Types (s other : CountMinSketch).

Lemma cell_table_plus (t1 t2 : list (list float64)) i j :
  cell (table_plus t1 t2) i j =
    match cell t1 i j, cell t2 i j with
    | Some x, Some y => Some (f_add x y)
    | _, _ => None
    end.
Proof.
  unfold cell, table_plus. rewrite lookup_zip_with.
  destruct (t1 !! i) as [r1|]; [|done]. cbn.
  destruct (t2 !! i) as [r2|]; cbn.
  - rewrite lookup_zip_with. destruct (r1 !! j); [|done]. cbn. by destruct (r2 !! j).
  - by destruct (r1 !! j).
Qed.

Lemma merge_mismatch s other :
  width s <> width other \/ depth s <> depth other ->
  merge other s = (s, Raise ValueError).
Proof. intros Hne. unfold merge, bind, get. by rewrite decide_True. Qed.

Lemma merge_match s other :
  width s = width other -> depth s = depth other ->
  merge other s =
    ({| width := width s; depth := depth s;
        table := table_plus (table s) (table other);
        total_sum := d_add (total_sum s) (total_sum other);
        hash_salts := hash_salts s |}, Ok tt).
Proof.
  intros Hw Hd. unfold merge, bind, get. rewrite decide_False; [done|]. intros [?|?]; done.
Qed.



Lemma run_adds_wf evs s : wf_sketch s -> wf_sketch (run_adds evs s).
Proof.
  revert s. induction evs as [|[npi a] evs IH]; intros s Hwf; [done|].
  cbn [run_adds foldl fst snd]. fold (run_adds evs).
  destruct (add_ok s npi a Hwf) as (tbl' & -> & Hwf' & _). by apply IH.
Qed.

Lemma table_plus_comm (t1 t2 : list (list float64)) :
  (forall x y, f_add x y = f_add y x) -> table_plus t1 t2 = table_plus t2 t1.
Proof.
  intros Hc. unfold table_plus. revert t2.
  induction t1 as [|r1 t1 IH]; intros [|r2 t2]; cbn; try done.
  f_equal; [|apply IH]. clear IH. revert r2.
  induction r1 as [|x r1 IH]; intros [|y r2]; cbn; try done.
  by rewrite Hc, IH.
Qed.


End sketch_claims.

Lemma SFadd_comm (x y : spec_float) : SFadd prec emax x y = SFadd prec emax y x.
Proof.
  destruct x as [sx|sx| |sx mx ex], y as [sy|sy| |sy my ey]; cbn; try done;
    try (by destruct sx, sy).
  by rewrite Z.min_comm, Z.add_comm.
Qed.

Lemma float_add_comm (x y : float) : PrimFloat.add x y = PrimFloat.add y x.
Proof.
  apply Prim2SF_inj. rewrite !add_spec. apply SFadd_comm.
Qed.

Lemma dec_add_comm (a b : CPython.decimal) : CPython.dec_add a b = CPython.dec_add b a.
Proof.
  destruct a as [c1 e1|s1|], b as [c2 e2|s2|]; cbn; try done.
  - by rewrite Z.min_comm, Z.add_comm.
  - by destruct s1, s2.
Qed.




(** ** [add_claim], step by step (C3, C6) *)
Section add_claim_facts.
Context {R : Runtime}.
Implicit Types (t : TopProvidersTracker) (s : CountMinSketch).

(** [add_claim] once [add] and [estimate] have returned. *)
Lemma add_claim_run npi a t sk1 sk2 est :
  add npi a (sketch t) = (sk1, Ok tt) ->
  estimate npi sk1 = (sk2, Ok est) ->
  add_claim npi a t = _update_top_k npi est (counted npi sk1 t).
Proof.
  intros Hadd Hest.
  pose proof (readonly_estimate npi sk1) as Hro. rewrite Hest in Hro. cbn in Hro. subst sk2.
  unfold add_claim. unfold bind at 1. rewrite on_sketch_run, Hadd. cbn [fst snd].
  unfold bind at 1. cbn [modify]. unfold bind at 1. rewrite on_sketch_run.
  cbn [sketch set_claim_counts set_sketch]. rewrite Hest. done.
Qed.

(** On a well-formed sketch both return, whatever the amount. *)
Lemma add_claim_wf_run npi a t :
  wf_sketch (sketch t) ->
  exists sk1,
    add npi a (sketch t) = (sk1, Ok tt) /\ wf_sketch sk1
    /\ width sk1 = width (sketch t) /\ depth sk1 = depth (sketch t)
    /\ total_sum sk1 = d_add (total_sum (sketch t)) a
    /\ (forall i j, cell (table sk1) i j =
          (fun c => if decide (j = col (width (sketch t)) npi i)
                    then f_add c (to_float a) else c) <$> cell (table (sketch t)) i j)
    /\ add_claim npi a t =
         _update_top_k npi (of_float (min_cells sk1 npi)) (counted npi sk1 t).
Proof.
  intros Hwf. destruct (add_ok _ npi a Hwf) as (tbl' & Hadd & Hwf' & Hcell).
  eexists. split; [exact Hadd|]. split_and!; try done.
  eapply add_claim_run; [exact Hadd|]. by apply estimate_ok.
Qed.

Lemma tracker_inv_counted npi sk t : tracker_inv t -> tracker_inv (counted npi sk t).
Proof. intros []. by split. Qed.

(** With room for at least one entry, the admission step never raises
    on a consistent tracker. *)
Lemma _update_top_k_returns npi total t :
  tracker_inv t -> 0 < k t ->
  exists t', _update_top_k npi total t = (t', Ok tt) /\ tracker_inv t'
    /\ sketch t' = sketch t /\ claim_counts t' = claim_counts t /\ k t' = k t.
Proof.
  intros Hinv Hk. destruct (provider_map t !! npi) as [r|] eqn:Hmap.
  { destruct (_update_top_k_tracked npi total t r Hinv Hmap)
      as (t' & ? & ? & _ & _ & _ & ? & ? & ?). eauto 10. }
  destruct (decide (Z.of_nat (length (top_providers t)) < k t)) as [Hlen|Hlen].
  { rewrite _update_top_k_room by done.
    destruct (track_inv npi total t Hinv Hmap) as (t' & ? & ? & _ & _ & ? & ? & ?); [lia|].
    eauto 10. }
  destruct (top_providers t) as [|root rest] eqn:Hheap; [cbn in Hlen; lia|].
  destruct (d_ltb (net_fee_total (deref (objects t) root)) total) eqn:Hlt.
  - destruct (_update_top_k_evict npi total t root rest Hinv Hmap)
      as (t' & ? & ? & _ & _ & ? & ? & ?); [rewrite Hheap; lia|done..|]. eauto 10.
  - exists t. rewrite (_update_top_k_keep npi total t root rest);
      [done|done|rewrite Hheap; lia|done..].
Qed.

Lemma add_claim_returns npi a t :
  wf_sketch (sketch t) -> tracker_inv t -> 0 < k t ->
  exists t', add_claim npi a t = (t', Ok tt)
    /\ wf_sketch (sketch t') /\ tracker_inv t' /\ k t' = k t
    /\ width (sketch t') = width (sketch t)
    /\ total_sum (sketch t') = d_add (total_sum (sketch t)) a
    /\ claim_counts t' = <[npi := default 0 (claim_counts t !! npi) + 1]> (claim_counts t).
Proof.
  intros Hwf Hinv Hk.
  destruct (add_claim_wf_run npi a t Hwf) as (sk1 & _ & Hwf1 & Hw & _ & Hsum & _ & ->).
  destruct (_update_top_k_returns npi (of_float (min_cells sk1 npi)) (counted npi sk1 t))
    as (t' & -> & Hinv' & Hsk & Hcc & Hk'); [by apply tracker_inv_counted|done|].
  exists t'. rewrite Hsk, Hcc, Hk'. by split_and!.
Qed.

Lemma run_claims_wf evs t :
  wf_sketch (sketch t) -> tracker_inv t -> 0 < k t ->
  wf_sketch (sketch (run_claims evs t)) /\ tracker_inv (run_claims evs t)
  /\ k (run_claims evs t) = k t.
Proof.
  revert t. induction evs as [|[npi a] evs IH]; intros t Hwf Hinv Hk; [done|].
  cbn [run_claims foldl fst snd]. fold (run_claims evs).
  destruct (add_claim_returns npi a t Hwf Hinv Hk) as (t' & -> & ? & ? & Hk' & _).
  cbn [fst]. rewrite <-Hk'. apply IH; [done..|lia].
Qed.

Lemma TopProvidersTracker_init_wf k0 w d t0 :
  0 < w -> TopProvidersTracker_init k0 w d = Ok t0 -> wf_sketch (sketch t0).
Proof.
  unfold TopProvidersTracker_init. intros Hw.
  destruct (CountMinSketch_init w d) as [sk|] eqn:Hsk; [|done].
  intros [= <-]. by eapply CountMinSketch_init_wf.
Qed.



End add_claim_facts.

Lemma FixedPoint_le_trans (x y z : FixedPoint.cents) :
  FixedPoint.c_ltb x y = false -> FixedPoint.c_ltb y z = false ->
  FixedPoint.c_ltb x z = false.
Proof. destruct x, y, z; cbn; try done; lia. Qed.




(** ** Cached totals against live estimates (C2) *)
Section accuracy.
Context {R : Runtime}.
Implicit Types (t : TopProvidersTracker) (s : CountMinSketch).

Lemma min_cells_ext s s' npi :
  width s' = width s -> depth s' = depth s ->
  (forall i, (i < Z.to_nat (depth s))%nat ->
     cell (table s') i (col (width s) npi i) = cell (table s) i (col (width s) npi i)) ->
  min_cells s' npi = min_cells s npi.
Proof.
  intros Hw Hd Hcells. unfold min_cells. rewrite Hw, Hd.
  assert (forall i, i ∈ range (depth s) -> (i < Z.to_nat (depth s))%nat) as Hl.
  { intros i Hi%elem_of_seq. lia. }
  revert Hl. generalize f_inf. induction (range (depth s)) as [|i l IH]; intros acc Hl; [done|].
  cbn [foldl]. rewrite Hcells by (apply Hl; constructor).
  apply IH. intros j Hj. apply Hl. by constructor.
Qed.

(** What the admission step leaves in the dictionary: the key just
    added, with the total it was given, and the entries that were there,
    with their objects untouched. *)
Lemma _update_top_k_entries npi total t b r :
  tracker_inv t ->
  provider_map (_update_top_k npi total t).1 !! b = Some r ->
  sketch (_update_top_k npi total t).1 = sketch t
  /\ ((b = npi /\ net_fee_total (deref (objects (_update_top_k npi total t).1) r) = total)
      \/ (b <> npi /\ provider_map t !! b = Some r
          /\ deref (objects (_update_top_k npi total t).1) r = deref (objects t) r)).
Proof.
  intros Hinv. destruct (provider_map t !! npi) as [r0|] eqn:Hmap.
  { destruct (_update_top_k_tracked npi total t r0 Hinv Hmap)
      as (t' & -> & _ & Hmap' & Hobj & Hother & Hsk & _ & _).
    cbn [fst]. rewrite Hmap'. intros Hb. split; [done|].
    destruct (decide (b = npi)) as [->|Hne].
    - left. split; [done|]. assert (r = r0) as -> by congruence.
      by rewrite (deref_Some _ _ _ Hobj).
    - right. split_and!; try done. unfold deref. rewrite Hother; [done|].
      intros ->. destruct (inv_obj _ Hinv _ _ Hmap) as (o & Ho & Hn).
      destruct (inv_obj _ Hinv _ _ Hb) as (o' & Ho' & Hn'). congruence. }
  assert (forall t',
    objects t' = <[next_ref t := {| provider_npi := npi; net_fee_total := total;
                                    claim_count := default 0 (claim_counts t !! npi) |}]>
                   (objects t) ->
    forall m0, provider_map t' = <[npi := next_ref t]> m0 ->
    (forall b r, m0 !! b = Some r -> provider_map t !! b = Some r) ->
    provider_map t' !! b = Some r ->
    (b = npi /\ net_fee_total (deref (objects t') r) = total)
    \/ (b <> npi /\ provider_map t !! b = Some r /\ deref (objects t') r = deref (objects t) r))
    as Hnew.
  { intros t' Hobj m0 Hmap' Hsub Hb. rewrite Hmap' in Hb.
    destruct (decide (b = npi)) as [->|Hne].
    - left. split; [done|]. rewrite lookup_insert_eq in Hb. injection Hb as <-.
      by rewrite Hobj, deref_insert_eq.
    - right. rewrite lookup_insert_ne in Hb by done. apply Hsub in Hb.
      split_and!; try done. unfold deref. rewrite Hobj, lookup_insert_ne; [done|].
      intros <-. assert (next_ref t ∈ top_providers t) as Hin.
      { rewrite (inv_perm _ Hinv). apply list_elem_of_fmap.
        exists (b, next_ref t). split; [done|]. by apply elem_of_map_to_list. }
      apply (inv_fresh _ Hinv) in Hin. lia. }
  destruct (decide (Z.of_nat (length (top_providers t)) < k t)) as [Hlen|Hlen].
  { rewrite _update_top_k_room by done.
    destruct (track_inv npi total t Hinv Hmap) as (t' & -> & _ & Hmap' & Hobj & Hsk & _ & _);
      [lia|].
    cbn [fst]. intros Hb. split; [done|]. by eapply Hnew. }
  destruct (top_providers t) as [|root rest] eqn:Hheap.
  { assert (_update_top_k npi total t = (t, Raise IndexError)) as ->.
    { unfold _update_top_k. unfold bind at 1. unfold get. cbv beta iota.
      by rewrite Hmap, Hheap, decide_False. }
    cbn [fst]. intros Hb. split; [done|]. right. split_and!; try done. congruence. }
  destruct (d_ltb (net_fee_total (deref (objects t) root)) total) eqn:Hlt.
  - destruct (_update_top_k_evict npi total t root rest Hinv Hmap)
      as (t' & -> & _ & Hmap' & Hobj & Hsk & _ & _); [rewrite Hheap; lia|done..|].
    cbn [fst]. intros Hb. split; [done|]. eapply Hnew; [done..| |done].
    intros b' r' Hb'. by apply lookup_delete_Some in Hb' as [_ ?].
  - rewrite (_update_top_k_keep npi total t root rest);
      [|done|rewrite Hheap; lia|done..].
    cbn [fst]. intros Hb. split; [done|]. right. split_and!; try done. congruence.
Qed.

Lemma _update_top_k_frame npi total t :
  tracker_inv t ->
  sketch (_update_top_k npi total t).1 = sketch t
  /\ claim_counts (_update_top_k npi total t).1 = claim_counts t.
Proof.
  intros Hinv. destruct (provider_map t !! npi) as [r|] eqn:Hmap.
  { destruct (_update_top_k_tracked npi total t r Hinv Hmap)
      as (t' & -> & _ & _ & _ & _ & ? & ? & _). by split. }
  destruct (decide (Z.of_nat (length (top_providers t)) < k t)) as [Hlen|Hlen].
  { rewrite _update_top_k_room by done.
    destruct (track_inv npi total t Hinv Hmap) as (t' & -> & _ & _ & _ & ? & ? & _);
      [lia|by split]. }
  destruct (top_providers t) as [|root rest] eqn:Hheap.
  { assert (_update_top_k npi total t = (t, Raise IndexError)) as ->; [|by split].
    unfold _update_top_k. unfold bind at 1. unfold get. cbv beta iota.
    by rewrite Hmap, Hheap, decide_False. }
  destruct (d_ltb (net_fee_total (deref (objects t) root)) total) eqn:Hlt.
  - destruct (_update_top_k_evict npi total t root rest Hinv Hmap)
      as (t' & -> & _ & _ & _ & ? & ? & _); [rewrite Hheap; lia|done..|by split].
  - rewrite (_update_top_k_keep npi total t root rest);
      [by split|done|rewrite Hheap; lia|done..].
Qed.

Lemma add_claim_cache_fresh keys npi a t :
  wf_sketch (sketch t) -> tracker_inv t ->
  collision_free (width (sketch t)) (depth (sketch t)) keys ->
  npi ∈ keys -> cache_fresh keys t ->
  wf_sketch (sketch (add_claim npi a t).1) /\ tracker_inv (add_claim npi a t).1
  /\ width (sketch (add_claim npi a t).1) = width (sketch t)
  /\ depth (sketch (add_claim npi a t).1) = depth (sketch t)
  /\ cache_fresh keys (add_claim npi a t).1.
Proof.
  intros Hwf Hinv Hfree Hnpi Hcache.
  destruct (add_claim_inv npi a t Hinv) as [Hinv' _].
  destruct (add_claim_wf_run npi a t Hwf) as (sk1 & _ & Hwf1 & Hw & Hd & _ & Hcell & Hrun).
  rewrite Hrun in *.
  assert (tracker_inv (counted npi sk1 t)) as Hinv1 by by apply tracker_inv_counted.
  assert (sketch (_update_top_k npi (of_float (min_cells sk1 npi)) (counted npi sk1 t)).1 = sk1)
    as Hsk.
  { by destruct (_update_top_k_frame npi (of_float (min_cells sk1 npi))
                   (counted npi sk1 t) Hinv1) as [-> _]. }
  rewrite Hsk. split_and!; try done.
  intros b r Hb.
  destruct (_update_top_k_entries npi _ _ b r Hinv1 Hb) as [_ [[-> Htot]|(Hne & Hb0 & Hobj)]].
  - by rewrite Hsk.
  - cbn in Hb0. destruct (Hcache b r Hb0) as [Hbk Hfresh]. split; [done|].
    rewrite Hobj, Hsk. cbn. rewrite Hfresh. f_equal. symmetry.
    apply min_cells_ext; [done..|]. intros i Hi. rewrite Hcell.
    destruct (cell (table (sketch t)) i (col (width (sketch t)) b i)); [|done].
    cbn. f_equal. rewrite decide_False; [done|]. by apply Hfree.
Qed.

Lemma run_claims_cache_fresh keys evs t :
  wf_sketch (sketch t) -> tracker_inv t ->
  collision_free (width (sketch t)) (depth (sketch t)) keys ->
  Forall (fun ev => ev.1 ∈ keys) evs -> cache_fresh keys t ->
  wf_sketch (sketch (run_claims evs t)) /\ tracker_inv (run_claims evs t)
  /\ cache_fresh keys (run_claims evs t).
Proof.
  intros Hwf Hinv Hfree Hevs. revert t Hwf Hinv Hfree.
  induction Hevs as [|[npi a] evs Hnpi Hevs IH]; intros t Hwf Hinv Hfree Hcache; [done|].
  cbn [run_claims foldl fst snd]. fold (run_claims evs).
  destruct (add_claim_cache_fresh keys npi a t Hwf Hinv Hfree Hnpi Hcache)
    as (Hwf' & Hinv' & Hw & Hd & Hcache').
  apply IH; try done. by rewrite Hw, Hd.
Qed.

Lemma set_sketch_id t : set_sketch (sketch t) t = t.
Proof. by destruct t. Qed.

(** [verify_accuracy] when every cached total is the present estimate:
    it returns and flags nothing. *)
Lemma verify_accuracy_fresh keys t :
  (forall x, d_ltb d_cent (d_abs (d_sub x x)) = false) ->
  wf_sketch (sketch t) -> tracker_inv t -> cache_fresh keys t ->
  exists stats, verify_accuracy t = (t, Ok stats) /\ discrepancies stats = [].
Proof.
  intros Hlaw Hwf Hinv Hcache.
  assert (forall l found, (forall r, r ∈ l -> r ∈ top_providers t) ->
    for_fold l found (fun provider found =>
      let! self := get in
      let o := deref (objects self) provider in
      let! est := on_sketch (estimate (provider_npi o)) in
      if d_ltb d_cent (d_abs (d_sub est (net_fee_total o)))
      then ret (found ++ [ {| disc_provider_npi := provider_npi o;
                              heap_value := net_fee_total o;
                              sketch_estimate := est;
                              difference := d_abs (d_sub est (net_fee_total o)) |} ])
      else ret found) t = (t, Ok found)) as Hloop.
  { induction l as [|r l IH]; intros found Hl; [done|].
    cbn [for_fold]. unfold bind at 1. unfold bind at 1. unfold get at 1. cbv beta iota.
    unfold bind at 1. rewrite on_sketch_run, estimate_ok by done. cbn [fst snd].
    rewrite set_sketch_id.
    destruct (inv_heap_in_map t r Hinv) as (o & Ho & Hmap); [apply Hl; constructor|].
    rewrite (deref_Some _ _ _ Ho). destruct (Hcache _ _ Hmap) as [_ Hfresh].
    rewrite (deref_Some _ _ _ Ho) in Hfresh. rewrite Hfresh, Hlaw.
    unfold ret at 1. apply IH. intros r' Hr'. apply Hl. by constructor. }
  eexists. split.
  - unfold verify_accuracy. unfold bind at 1. unfold get at 1. cbv beta iota.
    unfold bind at 1. rewrite on_sketch_run.
    assert (error_estimate (sketch t)
            = (sketch t, Ok (d_mul (total_sum (sketch t))
                               (of_float (f_div f_e (f_of_int (width (sketch t))))))))
      as ->.
    { unfold error_estimate, bind, get. rewrite decide_False; [done|].
      pose proof (wf_width _ Hwf). lia. }
    cbn [fst snd]. rewrite set_sketch_id. unfold bind at 1.
    rewrite Hloop by done. reflexivity.
  - done.
Qed.


End accuracy.

Lemma dec_self_difference (x : CPython.decimal) :
  CPython.dec_ltb (CPython.DFin 1 (-2)) (CPython.dec_abs (CPython.dec_sub x x)) = false.
Proof.
  destruct x as [c e|s|]; [|by destruct s|done].
  unfold CPython.dec_sub, CPython.dec_neg, CPython.dec_add.
  rewrite Z.min_id, Z.sub_diag.
  replace (c * 10 ^ 0 + - c * 10 ^ 0) with 0 by lia.
  change (CPython.fix_prec 0 e) with (CPython.DFin 0 e).
  unfold CPython.dec_abs, CPython.dec_ltb. apply Z.ltb_ge.
  pose proof (Z.pow_nonneg 10 (-2 - Z.min (-2) e)). lia.
Qed.



(** ** [get_top_k] (C9) *)
Section sorted_facts.
Context {A K : Type} (lt : K -> K -> bool) (key : A -> K).
#[local] Abbreviation descending := (not_below lt key).

Lemma insert_desc_perm x l : insert_desc lt key x l ≡ₚ x :: l.
Proof.
  induction l as [|y l IH]; cbn; [done|].
  destruct (lt (key x) (key y)); [|done]. rewrite IH. apply perm_swap.
Qed.

Lemma sorted_desc_perm l : sorted_desc lt key l ≡ₚ l.
Proof.
  induction l as [|x l IH]; cbn; [done|]. by rewrite insert_desc_perm, IH.
Qed.

Lemma insert_desc_HdRel y x l :
  descending y x -> HdRel descending y l -> HdRel descending y (insert_desc lt key x l).
Proof.
  intros Hyx Hl. destruct l as [|z l]; cbn; [by constructor|].
  destruct (lt (key x) (key z)); constructor; [|done]. by inversion Hl.
Qed.

Lemma insert_desc_sorted x l :
  (forall a b, lt a b = true -> lt b a = false) ->
  Sorted descending l -> Sorted descending (insert_desc lt key x l).
Proof.
  intros Hasym Hl. induction Hl as [|y l Hl IH Hhd]; cbn.
  - repeat constructor.
  - destruct (lt (key x) (key y)) eqn:Hxy.
    + constructor; [done|]. apply insert_desc_HdRel; [|done]. by apply Hasym.
    + constructor; [by constructor|]. by constructor.
Qed.

Lemma sorted_desc_sorted l :
  (forall a b, lt a b = true -> lt b a = false) ->
  Sorted descending (sorted_desc lt key l).
Proof.
  intros Hasym. induction l as [|x l IH]; cbn; [constructor|].
  by apply insert_desc_sorted.
Qed.

End sorted_facts.

Section top_k.
Context {R : Runtime}.
Implicit Types (t : TopProvidersTracker).

Lemma run_claims_cons npi a evs t :
  run_claims ((npi, a) :: evs) t = run_claims evs (add_claim npi a t).1.
Proof. done. Qed.

(** While the keys seen and to come number fewer than [k], every key
    added is tracked: the dictionary's keys are the keys added. *)
Lemma run_claims_dom evs t :
  wf_sketch (sketch t) -> tracker_inv t ->
  Z.of_nat (size (dom (provider_map t) ∪ list_to_set (evs.*1) : gset string)) < k t ->
  dom (provider_map (run_claims evs t)) = dom (provider_map t) ∪ list_to_set (evs.*1).
Proof.
  revert t. induction evs as [|[npi a] evs IH]; intros t Hwf Hinv Hsize.
  { cbn. set_solver. }
  rewrite run_claims_cons.
  destruct (add_claim_wf_run npi a t Hwf) as (sk1 & _ & Hwf1 & _ & _ & _ & _ & Hrun).
  pose proof (tracker_inv_counted npi sk1 t Hinv) as Hinv1.
  assert (exists t', add_claim npi a t = (t', Ok tt) /\ tracker_inv t'
            /\ dom (provider_map t') = {[npi]} ∪ dom (provider_map t)
            /\ sketch t' = sk1 /\ k t' = k t) as (t' & Hrun' & Hinv' & Hdom & Hsk & Hk).
  { rewrite Hrun. destruct (provider_map t !! npi) as [r|] eqn:Hmap.
    - destruct (_update_top_k_tracked npi (of_float (min_cells sk1 npi)) (counted npi sk1 t) r)
        as (t' & ? & ? & Hmap' & _ & _ & ? & _ & ?); [done..|].
      exists t'. split_and!; try done. rewrite Hmap'. cbn.
      apply elem_of_dom_2 in Hmap. set_solver.
    - rewrite _update_top_k_room; [|done|].
      + destruct (track_inv npi (of_float (min_cells sk1 npi)) (counted npi sk1 t))
          as (t' & ? & ? & Hmap' & _ & ? & _ & ?); [done..| |].
        * cbn. rewrite (tracker_inv_length t Hinv), <-size_dom.
          assert (size (dom (provider_map t))
                  <= size (dom (provider_map t) ∪ list_to_set (((npi, a) :: evs).*1) : gset string))%nat
            by (apply subseteq_size; set_solver).
          lia.
        * exists t'. split_and!; try done. rewrite Hmap'. cbn. by rewrite dom_insert_L.
      + cbn. rewrite (tracker_inv_length t Hinv), <-size_dom.
        assert (size (dom (provider_map t))
                <= size (dom (provider_map t) ∪ list_to_set (((npi, a) :: evs).*1) : gset string))%nat
          by (apply subseteq_size; set_solver).
        lia. }
  rewrite Hrun'. cbn [fst]. rewrite IH.
  - rewrite Hdom. cbn. set_solver.
  - by rewrite Hsk.
  - done.
  - rewrite Hk, Hdom. cbn in Hsize |- *.
    replace ({[npi]} ∪ dom (provider_map t) ∪ list_to_set (evs.*1) : gset string)
      with (dom (provider_map t) ∪ ({[npi]} ∪ list_to_set (evs.*1)) : gset string)
      by set_solver.
    done.
Qed.


End top_k.

Lemma dec_ltb_asym (a b : CPython.decimal) :
  CPython.dec_ltb a b = true -> CPython.dec_ltb b a = false.
Proof.
  destruct a as [c1 e1|s1|], b as [c2 e2|s2|]; cbn; try done.
  - rewrite (Z.min_comm e2 e1). intros H%Z.ltb_lt. apply Z.ltb_ge. lia.
  - by destruct s2.
  - by destruct s1.
  - by destruct s1, s2.
Qed.


(** ** The loops of [heapq] end before their fuel does *)
Section heapq_fuel.
Context {A : Type} (lt : A -> A -> bool).
Implicit Types (heap : list A).

(** [_siftdown]'s loop halves [pos]: from [pos] turns on, further fuel
    changes nothing. *)
Lemma _siftdown_loop_fuel fuel heap newitem startpos pos :
  (pos <= fuel)%nat ->
  _siftdown_loop lt (S fuel) heap newitem startpos pos
  = _siftdown_loop lt fuel heap newitem startpos pos.
Proof.
  revert heap pos. induction fuel as [|fuel IH]; intros heap pos Hpos.
  - assert (pos = 0)%nat as -> by lia. cbn [_siftdown_loop].
    by rewrite decide_False by lia.
  - cbn [_siftdown_loop] in *. case_decide; [|done].
    destruct (heap !! ((pos - 1) / 2)%nat) as [parent|]; [|done].
    destruct (lt newitem parent); [|done].
    apply IH. pose proof (Nat.Div0.div_le_upper_bound (pos - 1) 2 fuel). lia.
Qed.

(** [_siftup]'s loop moves [childpos] towards the end of the list. *)
Lemma _siftup_loop_fuel fuel heap pos childpos :
  (length heap - childpos <= fuel)%nat ->
  _siftup_loop lt (S fuel) heap pos childpos = _siftup_loop lt fuel heap pos childpos.
Proof.
  revert heap pos childpos. induction fuel as [|fuel IH]; intros heap pos childpos Hfuel.
  - cbn [_siftup_loop]. by rewrite decide_False by lia.
  - cbn [_siftup_loop] in *. case_decide; [|done].
    set (c' := match heap !! childpos with
          | Some c => match heap !! (childpos + 1)%nat with
                      | Some r => if negb (lt c r) then (childpos + 1)%nat else childpos
                      | None => childpos end
          | None => childpos end).
    assert (childpos <= c')%nat as Hc'.
    { subst c'. destruct (heap !! childpos); [|lia].
      destruct (heap !! (childpos + 1)%nat); [|lia]. destruct (negb _); lia. }
    destruct (heap !! c') as [child|]; [|done].
    apply IH. rewrite length_insert. lia.
Qed.

End heapq_fuel.

(** ** The repository's tests, run on the model

    [tests/test_count_min_sketch.py], with the default 2719 x 5 sketch
    where the test takes the default. *)

(** [test_add_claims_and_get_top_k]: npi2 with 200.0, npi3 with 150.0,
    npi1 with 150.0 after two claims. *)
Example test_add_claims_and_get_top_k :
  exists t0,
    @TopProvidersTracker_init CPython.runtime 3 2719 5 = Ok t0
    /\ @top_k_view CPython.runtime (@run_claims CPython.runtime test_claims t0)
       = [("npi2", CPython.DFin 2000 (-1), 1); ("npi3", CPython.DFin 1500 (-1), 1);
          ("npi1", CPython.DFin 1500 (-1), 2)].
Proof. eexists. split; [reflexivity|]. vm_compute. reflexivity. Qed.

(** [test_heap_updates]: with [k = 2], npi3 (200.00) evicts npi1
    (100.00). *)
Example test_heap_updates :
  exists t0,
    @TopProvidersTracker_init CPython.runtime 2 2719 5 = Ok t0
    /\ @top_k_view CPython.runtime (@run_claims CPython.runtime three_claims t0)
       = [("npi3", CPython.DFin 2000 (-1), 1); ("npi2", CPython.DFin 1500 (-1), 1)].
Proof. eexists. split; [reflexivity|]. vm_compute. reflexivity. Qed.

(** [test_verify_accuracy]: two providers, a total of "300.00", no
    discrepancy. *)
Example test_verify_accuracy :
  exists t0,
    @TopProvidersTracker_init CPython.runtime 3 2719 5 = Ok t0
    /\ match (@verify_accuracy CPython.runtime
               (@run_claims CPython.runtime
                  [("npi1", CPython.DFin 10000 (-2)); ("npi2", CPython.DFin 20000 (-2))] t0)).2 with
       | Ok stats => (heap_size stats, total_providers stats, total_net_fees stats,
                      length (discrepancies stats))
       | Raise _ => (0, 0, CPython.DNaN, 0)%nat
       end = (2, 2, CPython.DFin 30000 (-2), 0)%nat.
Proof. eexists. split; [reflexivity|]. vm_compute. reflexivity. Qed.

(** [test_add_and_estimate]: estimates of 150.0 and 200.0 and a total
    of 350.00 on a 1000 x 5 sketch. *)
Example test_add_and_estimate :
  exists s0,
    @CountMinSketch_init CPython.runtime 1000 5 = Ok s0
    /\ (let s := @run_adds CPython.runtime
                   [("provider1", CPython.DFin 10000 (-2)); ("provider1", CPython.DFin 5000 (-2));
                    ("provider2", CPython.DFin 20000 (-2))] s0 in
        ((@estimate CPython.runtime "provider1" s).2,
         (@estimate CPython.runtime "provider2" s).2, total_sum s))
       = (Ok (CPython.DFin 1500 (-1)), Ok (CPython.DFin 2000 (-1)), CPython.DFin 35000 (-2)).
Proof. eexists. split; [reflexivity|]. vm_compute. reflexivity. Qed.

(** * Further properties of the code

    ** [clear], and what [add] leaves alone *)
Section shape.
Context {R : Runtime}.
Implicit Types (s : CountMinSketch).

Lemma same_shape_refl s : same_shape s s.
Proof. by repeat split. Qed.

Lemma same_shape_trans s1 s2 s3 : same_shape s1 s2 -> same_shape s2 s3 -> same_shape s1 s3.
Proof. intros (? & ? & ? & ?) (? & ? & ? & ?). repeat split; congruence. Qed.

Lemma keeps_shape_readonly {A} (m : M CountMinSketch A) : readonly m -> keeps_shape m.
Proof. intros Hm s. rewrite Hm. apply same_shape_refl. Qed.

Lemma keeps_shape_bind {A B} (m : M CountMinSketch A) (f : A -> M CountMinSketch B) :
  keeps_shape m -> (forall a, keeps_shape (f a)) -> keeps_shape (bind m f).
Proof.
  intros Hm Hf s. unfold bind. specialize (Hm s).
  destruct (m s) as [s' [a|e]]; cbn in *; [|done].
  eapply same_shape_trans; [exact Hm|apply Hf].
Qed.

Lemma keeps_shape_for_each {A} (l : list A) (body : A -> M CountMinSketch unit) :
  (forall x, keeps_shape (body x)) -> keeps_shape (for_each l body).
Proof.
  intros Hbody. induction l as [|x l IH]; cbn [for_each].
  - intros s. apply same_shape_refl.
  - apply keeps_shape_bind; [apply Hbody|]. intros _. apply IH.
Qed.

Lemma keeps_shape_table_iadd i j x : keeps_shape (table_iadd i j x).
Proof.
  intros s. unfold table_iadd, bind, get.
  destruct (table s !! i) as [row|] eqn:Hrow; [|apply same_shape_refl].
  destruct (py_index (length row) j) as [j'|]; [|apply same_shape_refl].
  destruct (row !! j') as [c|]; [|apply same_shape_refl].
  unfold modify, same_shape. cbn [fst snd table set_table width depth hash_salts].
  split_and!; try done.
  rewrite list_fmap_insert, length_insert. apply list_insert_id.
  by rewrite list_lookup_fmap, Hrow.
Qed.

Lemma keeps_shape_add npi a : keeps_shape (add npi a).
Proof.
  unfold add. apply keeps_shape_bind; [apply keeps_shape_readonly, readonly_get|].
  intros self. apply keeps_shape_bind.
  - apply keeps_shape_for_each. intros i.
    apply keeps_shape_bind; [apply keeps_shape_readonly, readonly__hash|].
    intros j. apply keeps_shape_table_iadd.
  - intros _ s. by repeat split.
Qed.

Lemma run_adds_same_shape evs s : same_shape s (run_adds evs s).
Proof.
  revert s. induction evs as [|[npi a] evs IH]; intros s; [apply same_shape_refl|].
  cbn [run_adds foldl fst snd]. fold (run_adds evs).
  eapply same_shape_trans; [apply keeps_shape_add|apply IH].
Qed.

Lemma clear_table (tbl : list (list float64)) :
  map (map (fun _ => f_zero)) tbl = (fun n => replicate n f_zero) <$> (length <$> tbl).
Proof.
  induction tbl as [|row tbl IH]; [done|]. cbn. f_equal; [|exact IH].
  clear. induction row as [|x row IH]; [done|]. cbn. by f_equal.
Qed.

(** X1.  [clear] undoes every [add]: on a sketch built by the
    constructor and then fed any sequence of [add] calls (returned or
    raised), it returns and leaves exactly the sketch the constructor
    built: all counters 0.0, [total_sum] 0.00, the same dimensions and
    salts. *)
Theorem clear_restores_fresh_sketch (w d : Z) s0 evs :
  CountMinSketch_init w d = Ok s0 ->
  clear (run_adds evs s0) = (s0, Ok tt).
Proof.
  intros Hinit.
  assert (s0 = {| width := w; depth := d;
                  table := replicate (Z.to_nat d) (replicate (Z.to_nat w) f_zero);
                  total_sum := d_zero; hash_salts := salt <$> range d |}) as Hs0.
  { revert Hinit. unfold CountMinSketch_init, np_zeros. case_decide; [done|]. by intros [= <-]. }
  destruct (run_adds_same_shape evs s0) as (Hw & Hd & Hs & Hshape).
  unfold clear, bind, modify.
  cbn [set_table set_total_sum width depth table hash_salts total_sum fst snd].
  unfold set_total_sum, set_table. cbn [width depth table hash_salts total_sum].
  rewrite Hw, Hd, Hs, clear_table, Hshape. subst s0.
  cbn [width depth table hash_salts].
  by rewrite !fmap_replicate, length_replicate.
Qed.

End shape.

Lemma clear_restores_fresh_sketch_witness :
  exists s0,
    @CountMinSketch_init CPython.runtime 8 2 = Ok s0
    /\ @clear CPython.runtime (@run_adds CPython.runtime three_claims s0) = (s0, Ok tt).
Proof.
  eexists. split; [reflexivity|].
  apply (@clear_restores_fresh_sketch CPython.runtime 8 2). reflexivity.
Defined.

(** ** What [add] writes, and what [estimate] reads back *)
Section exact.
Context {R : Runtime}.
Implicit Types (s : CountMinSketch).

(** The counters of a key that shares no column with the other keys
    added hold the key's own sum. *)
Lemma run_adds_own_cells npi evs s b :
  wf_sketch s ->
  (forall c, c ∈ evs.*1 -> c <> npi ->
     forall i, (i < Z.to_nat (depth s))%nat -> col (width s) c i <> col (width s) npi i) ->
  (forall i, (i < Z.to_nat (depth s))%nat ->
     cell (table s) i (col (width s) npi i) = Some b) ->
  forall i, (i < Z.to_nat (depth s))%nat ->
    cell (table (run_adds evs s)) i (col (width s) npi i) = Some (own_sum_from b npi evs).
Proof.
  revert s b. induction evs as [|[npi' a] evs IH]; intros s b Hwf Hfree Hb; [done|].
  destruct (add_ok s npi' a Hwf) as (tbl' & Hadd & Hwf' & Hcell).
  cbn [run_adds foldl fst snd own_sum_from]. fold (run_adds evs).
  rewrite Hadd. cbn [fst].
  set (s1 := set_total_sum _ _) in *.
  intros i Hi.
  refine (IH s1 (if decide (npi' = npi) then f_add b (to_float a) else b) Hwf' _ _ i Hi).
  - intros c Hc. apply Hfree. cbn. set_solver.
  - intros i' Hi'. cbn [table s1 set_total_sum set_table width]. rewrite Hcell, (Hb i' Hi').
    cbn [fmap option_fmap option_map]. f_equal.
    destruct (decide (npi' = npi)) as [->|Hne].
    + by rewrite decide_True.
    + rewrite decide_False; [done|]. intros Heq. eapply Hfree; [|done|exact Hi'|done].
      cbn. set_solver.
Qed.

Lemma foldl_py_min_const (x : float64) (l : list nat) acc :
  f_ltb x f_inf = true -> acc = f_inf \/ acc = x -> l <> [] \/ acc = x ->
  foldl (fun m _ => py_min m x) acc l = x.
Proof.
  intros Hx. revert acc. induction l as [|i l IH]; intros acc Hacc Hl.
  - by destruct Hl.
  - cbn [foldl]. assert (py_min acc x = x) as ->; [|apply IH; by right].
    unfold py_min. destruct Hacc as [->| ->]; [by rewrite Hx|by destruct (f_ltb x x)].
Qed.

(** X2.  On a sketch of positive width, [add(npi, a)] changes
    one counter in every row, the one in the column [npi] hashes to,
    by adding [float(a)] to it, and leaves every other counter as it
    was (also when the call raises after the loop). *)
Theorem add_changes_one_counter_per_row (w d : Z) s0 evs npi a i j :
  0 < w -> CountMinSketch_init w d = Ok s0 ->
  cell (table (add npi a (run_adds evs s0)).1) i j =
    (fun c => if decide (j = col w npi i) then f_add c (to_float a) else c)
      <$> cell (table (run_adds evs s0)) i j.
Proof.
  intros Hw Hinit.
  pose proof (run_adds_wf evs s0 (CountMinSketch_init_wf _ _ _ Hw Hinit)) as Hwf.
  destruct (run_adds_same_shape evs s0) as (Hw' & _).
  assert (width s0 = w) as Hw0.
  { revert Hinit. unfold CountMinSketch_init. destruct (np_zeros d w); [|done].
    by intros [= <-]. }
  destruct (add_ok _ npi a Hwf) as (tbl' & -> & _ & Hcell).
  cbn [fst table set_total_sum set_table]. by rewrite Hcell, Hw', Hw0.
Qed.

(** X3.  Without a collision the estimate is exact in the
    counters' arithmetic: when no other key added shares a column with
    [npi] in any row, [estimate(npi)] returns [Decimal(str(x))] for [x]
    the float sum, in call order, of the amounts added under [npi],
    provided that sum is below infinity. *)
Theorem estimate_exact_without_collisions (w d : Z) s0 evs npi :
  0 < w -> 0 < d ->
  CountMinSketch_init w d = Ok s0 ->
  (forall c, c ∈ evs.*1 -> c <> npi ->
     forall i, (i < Z.to_nat d)%nat -> col w c i <> col w npi i) ->
  f_ltb (own_sum npi evs) f_inf = true ->
  estimate npi (run_adds evs s0) = (run_adds evs s0, Ok (of_float (own_sum npi evs))).
Proof.
  intros Hw Hd Hinit Hfree Hfin.
  pose proof (CountMinSketch_init_wf _ _ _ Hw Hinit) as Hwf.
  assert (width s0 = w /\ depth s0 = d) as [Hw0 Hd0].
  { revert Hinit. unfold CountMinSketch_init. destruct (np_zeros d w); [|done].
    by intros [= <-]. }
  pose proof (run_adds_wf evs s0 Hwf) as Hwf'.
  destruct (run_adds_same_shape evs s0) as (Hw' & Hd' & _).
  rewrite estimate_ok by done.
  assert (min_cells (run_adds evs s0) npi = own_sum npi evs) as ->; [|done].
  unfold min_cells. rewrite Hw', Hd', Hw0, Hd0.
  assert (forall i, i ∈ range d ->
    cell (table (run_adds evs s0)) i (col w npi i) = Some (own_sum npi evs)) as Hcells.
  { intros i Hi%elem_of_seq. rewrite <-Hw0.
    apply run_adds_own_cells; [done| | |rewrite Hd0; lia].
    - intros c Hc Hcn i' Hi'. rewrite Hw0. apply Hfree; [done..|by rewrite <-Hd0].
    - intros i' Hi'.
      destruct (wf_cell_is_Some s0 i' (col (width s0) npi i') Hwf) as [c Hc];
        [done|apply col_lt, Hwf|].
      rewrite Hc. f_equal. by eapply CountMinSketch_init_cell. }
  assert (range d <> []) as Hne.
  { unfold range. destruct (Z.to_nat d) eqn:E; [lia|done]. }
  transitivity (foldl (fun m (_ : nat) => py_min m (own_sum npi evs)) f_inf (range d)).
  - clear Hne. revert Hcells. generalize f_inf.
    induction (range d) as [|i l IH]; intros acc Hc; [done|].
    cbn [foldl]. rewrite Hc by constructor. cbn [default from_option].
    apply IH. intros j Hj. apply Hc. by constructor.
  - apply foldl_py_min_const; auto.
Qed.

(** X4.  A sketch of width 0 and positive depth is built by
    the constructor but cannot be used: [add], [estimate] and
    [error_estimate] raise [ZeroDivisionError] and leave it as it was,
    so no sequence of [add] calls changes it; [add_claim] on a tracker
    over such a sketch raises the same and leaves the tracker as it
    was, the claim not counted. *)
Theorem zero_width_sketch_raises (k0 d : Z) s0 t0 evs npi a :
  0 < d ->
  CountMinSketch_init 0 d = Ok s0 ->
  TopProvidersTracker_init k0 0 d = Ok t0 ->
  add npi a s0 = (s0, Raise ZeroDivisionError)
  /\ estimate npi s0 = (s0, Raise ZeroDivisionError)
  /\ error_estimate s0 = (s0, Raise ZeroDivisionError)
  /\ run_adds evs s0 = s0
  /\ add_claim npi a t0 = (t0, Raise ZeroDivisionError)
  /\ run_claims evs t0 = t0.
Proof.
  intros Hd Hinit Htinit.
  assert (width s0 = 0 /\ depth s0 = d /\ hash_salts s0 = salt <$> range d)
    as (Hw0 & Hd0 & Hsalts).
  { revert Hinit. unfold CountMinSketch_init, np_zeros. case_decide; [done|]. by intros [= <-]. }
  assert (exists l, range d = 0%nat :: l) as [l Hl].
  { unfold range. destruct (Z.to_nat d) eqn:E; [lia|]. cbn. eauto. }
  assert (forall item, _hash item 0 s0 = (s0, Raise ZeroDivisionError)) as Hhash.
  { intros item. unfold _hash, bind, get. rewrite Hsalts, Hl.
    cbn [fmap list_fmap lookup list_lookup]. by rewrite decide_True. }
  assert (forall c b, add c b s0 = (s0, Raise ZeroDivisionError)) as Hadd.
  { intros c b. unfold add. unfold bind at 1. unfold get at 1. cbv beta iota.
    rewrite Hd0, Hl. cbn [for_each].
    unfold bind at 1. unfold bind at 1. unfold bind at 1. by rewrite Hhash. }
  assert (sketch t0 = s0 /\ set_sketch s0 t0 = t0) as [Hsk Hset].
  { revert Htinit. unfold TopProvidersTracker_init. rewrite Hinit. by intros [= <-]. }
  assert (forall c b, add_claim c b t0 = (t0, Raise ZeroDivisionError)) as Hclaim.
  { intros c b. unfold add_claim. unfold bind at 1. rewrite on_sketch_run.
    rewrite Hsk, Hadd. cbn [fst snd]. by rewrite Hset. }
  split_and!.
  - apply Hadd.
  - unfold estimate, min_estimate. unfold bind at 1. unfold bind at 1. unfold get at 1.
    cbv beta iota. rewrite Hd0, Hl. cbn [for_fold].
    unfold bind at 1. unfold bind at 1. by rewrite Hhash.
  - unfold error_estimate, bind, get. by rewrite decide_True.
  - unfold run_adds. induction evs as [|ev evs IH]; [done|]. cbn [foldl].
    by rewrite Hadd.
  - apply Hclaim.
  - unfold run_claims. induction evs as [|ev evs IH]; [done|]. cbn [foldl].
    by rewrite Hclaim.
Qed.

(** X5.  A sketch of depth 0 has no counter: whatever was
    added, [estimate] returns [Decimal(str(inf))] for every key, and
    the table stays empty. *)
Theorem zero_depth_estimate_is_infinite (w : Z) s0 evs npi :
  CountMinSketch_init w 0 = Ok s0 ->
  estimate npi (run_adds evs s0) = (run_adds evs s0, Ok (of_float f_inf))
  /\ table (run_adds evs s0) = [].
Proof.
  intros Hinit.
  assert (depth s0 = 0 /\ table s0 = []) as [Hd0 Ht0].
  { revert Hinit. unfold CountMinSketch_init, np_zeros. case_decide; [done|]. by intros [= <-]. }
  destruct (run_adds_same_shape evs s0) as (_ & Hd & _ & Hshape).
  split.
  - unfold estimate, min_estimate, bind, get. by rewrite Hd, Hd0.
  - rewrite Ht0 in Hshape. by destruct (table (run_adds evs s0)).
Qed.

End exact.

Lemma add_changes_one_counter_per_row_witness :
  exists s0,
    @CountMinSketch_init CPython.runtime 8 2 = Ok s0
    /\ cell (table (@add CPython.runtime "npi1" (CPython.DFin 5000 (-2))
                      (@run_adds CPython.runtime three_claims s0)).1) 0 0
       = (fun c => if decide (0%nat = @col CPython.runtime 8 "npi1" 0)
                   then @f_add CPython.runtime c (@to_float CPython.runtime (CPython.DFin 5000 (-2)))
                   else c)
           <$> cell (table (@run_adds CPython.runtime three_claims s0)) 0 0.
Proof.
  eexists. split; [reflexivity|].
  apply (@add_changes_one_counter_per_row CPython.runtime 8 2); [lia|reflexivity].
Defined.

Lemma estimate_exact_without_collisions_witness :
  exists s0,
    @CountMinSketch_init CPython.runtime 2719 5 = Ok s0
    /\ @estimate CPython.runtime "npi1" (@run_adds CPython.runtime test_claims s0)
       = (@run_adds CPython.runtime test_claims s0,
          Ok (@of_float CPython.runtime (@own_sum CPython.runtime "npi1" test_claims))).
Proof.
  eexists. split; [reflexivity|].
  apply (@estimate_exact_without_collisions CPython.runtime 2719 5);
    [lia|lia|reflexivity| |vm_compute; reflexivity].
  intros c Hc Hne i Hi. cbn in Hc.
  rewrite !elem_of_cons, elem_of_nil in Hc.
  assert (i = 0 \/ i = 1 \/ i = 2 \/ i = 3 \/ i = 4)%nat as Hi' by lia.
  destruct Hc as [->|[->|[->|[->|[->|[]]]]]];
    destruct Hi' as [->|[->|[->|[->| ->]]]];
    first [by destruct Hne | vm_compute; lia].
Defined.

Lemma zero_width_sketch_raises_witness :
  exists s0 t0,
    @CountMinSketch_init CPython.runtime 0 5 = Ok s0
    /\ @TopProvidersTracker_init CPython.runtime 10 0 5 = Ok t0
    /\ @add CPython.runtime "npi1" (CPython.DFin 10000 (-2)) s0 = (s0, Raise ZeroDivisionError)
    /\ @estimate CPython.runtime "npi1" s0 = (s0, Raise ZeroDivisionError)
    /\ @error_estimate CPython.runtime s0 = (s0, Raise ZeroDivisionError)
    /\ @run_adds CPython.runtime three_claims s0 = s0
    /\ @add_claim CPython.runtime "npi1" (CPython.DFin 10000 (-2)) t0
       = (t0, Raise ZeroDivisionError)
    /\ @run_claims CPython.runtime three_claims t0 = t0.
Proof.
  eexists _, _. split; [reflexivity|]. split; [reflexivity|].
  apply (@zero_width_sketch_raises CPython.runtime 10 5); [lia|reflexivity|reflexivity].
Defined.

Lemma zero_depth_estimate_is_infinite_witness :
  exists s0,
    @CountMinSketch_init CPython.runtime 2719 0 = Ok s0
    /\ @estimate CPython.runtime "npi1" (@run_adds CPython.runtime three_claims s0)
       = (@run_adds CPython.runtime three_claims s0,
          Ok (@of_float CPython.runtime (@f_inf CPython.runtime)))
    /\ table (@run_adds CPython.runtime three_claims s0) = [].
Proof.
  eexists. split; [reflexivity|].
  apply (@zero_depth_estimate_is_infinite CPython.runtime 2719). reflexivity.
Defined.

(** ** The tracker, claim by claim *)
Section counts.
Context {R : Runtime}.
Implicit Types (t : TopProvidersTracker).

(** What [add_claim] does on a well-formed sketch, as a whole. *)
Lemma add_claim_step npi a t :
  wf_sketch (sketch t) -> tracker_inv t ->
  exists sk1,
    wf_sketch sk1 /\ width sk1 = width (sketch t) /\ depth sk1 = depth (sketch t)
    /\ tracker_inv (counted npi sk1 t)
    /\ add_claim npi a t
       = _update_top_k npi (of_float (min_cells sk1 npi)) (counted npi sk1 t)
    /\ sketch (add_claim npi a t).1 = sk1
    /\ claim_counts (add_claim npi a t).1
       = <[npi := default 0 (claim_counts t !! npi) + 1]> (claim_counts t)
    /\ tracker_inv (add_claim npi a t).1.
Proof.
  intros Hwf Hinv.
  destruct (add_claim_wf_run npi a t Hwf) as (sk1 & _ & Hwf1 & Hw & Hd & _ & _ & Hrun).
  pose proof (tracker_inv_counted npi sk1 t Hinv) as Hinv1.
  destruct (_update_top_k_frame npi (of_float (min_cells sk1 npi)) _ Hinv1) as [Hsk Hcc].
  exists sk1. rewrite Hrun, Hsk, Hcc. split_and!; try done.
  by apply _update_top_k_inv.
Qed.

Lemma run_claims_wf_inv evs t :
  wf_sketch (sketch t) -> tracker_inv t ->
  wf_sketch (sketch (run_claims evs t)) /\ tracker_inv (run_claims evs t).
Proof.
  revert t. induction evs as [|[npi a] evs IH]; intros t Hwf Hinv; [done|].
  rewrite run_claims_cons.
  destruct (add_claim_step npi a t Hwf Hinv) as (sk1 & Hwf1 & _ & _ & _ & _ & Hsk & _ & Hinv').
  apply IH; [by rewrite Hsk|done].
Qed.

Lemma count_claims_cons {A} npi npi' (a : A) evs :
  count_claims npi ((npi', a) :: evs)
  = (if decide (npi' = npi) then 1 else 0) + count_claims npi evs.
Proof.
  unfold count_claims. rewrite filter_cons. cbn [fst].
  destruct (decide (npi' = npi)); cbn [length]; lia.
Qed.

Lemma count_claims_notin {A} npi (evs : list (string * A)) :
  npi ∉ evs.*1 -> count_claims npi evs = 0.
Proof.
  induction evs as [|[npi' a] evs IH]; [done|]. intros Hin.
  rewrite count_claims_cons, decide_False, IH; [done| |]; cbn in Hin; set_solver.
Qed.

Lemma run_claims_counts evs t npi :
  wf_sketch (sketch t) -> tracker_inv t ->
  claim_counts (run_claims evs t) !! npi
  = if decide (npi ∈ evs.*1)
    then Some (default 0 (claim_counts t !! npi) + count_claims npi evs)
    else claim_counts t !! npi.
Proof.
  revert t. induction evs as [|[npi' a] evs IH]; intros t Hwf Hinv; [done|].
  rewrite run_claims_cons.
  destruct (add_claim_step npi' a t Hwf Hinv) as (sk1 & Hwf1 & _ & _ & _ & _ & Hsk & Hcc & Hinv').
  rewrite IH by (by rewrite ?Hsk). rewrite Hcc, count_claims_cons.
  destruct (decide (npi' = npi)) as [->|Hne].
  - rewrite lookup_insert_eq. cbn [default from_option]. unfold id.
    rewrite (decide_True (P := npi ∈ ((npi, a) :: evs).*1)) by (cbn; set_solver).
    destruct (decide (npi ∈ evs.*1)) as [Hin|Hin]; f_equal; [lia|].
    rewrite (count_claims_notin npi evs Hin). lia.
  - rewrite lookup_insert_ne by done.
    destruct (decide (npi ∈ evs.*1)) as [Hin|Hin].
    + rewrite (decide_True (P := npi ∈ ((npi', a) :: evs).*1)) by (cbn; set_solver).
      f_equal; lia.
    + rewrite (decide_False (P := npi ∈ ((npi', a) :: evs).*1)); [done|]. cbn. set_solver.
Qed.

Lemma _update_top_k_new_entry npi total t r :
  tracker_inv t ->
  provider_map (_update_top_k npi total t).1 !! npi = Some r ->
  provider_map t !! npi = None
  \/ deref (objects (_update_top_k npi total t).1) r
     = {| provider_npi := npi; net_fee_total := total;
          claim_count := default 0 (claim_counts t !! npi) |}.
Proof.
  intros Hinv. destruct (provider_map t !! npi) as [r0|] eqn:Hmap; [|by left].
  destruct (_update_top_k_tracked npi total t r0 Hinv Hmap)
    as (t' & -> & _ & Hmap' & Hobj & _).
  cbn [fst]. rewrite Hmap', Hmap. intros [= <-]. right. by apply deref_Some.
Qed.

Lemma _update_top_k_admitted npi total t r :
  tracker_inv t -> provider_map t !! npi = None ->
  provider_map (_update_top_k npi total t).1 !! npi = Some r ->
  deref (objects (_update_top_k npi total t).1) r
  = {| provider_npi := npi; net_fee_total := total;
       claim_count := default 0 (claim_counts t !! npi) |}.
Proof.
  intros Hinv Hmap.
  destruct (decide (Z.of_nat (length (top_providers t)) < k t)) as [Hlen|Hlen].
  { rewrite _update_top_k_room by done.
    destruct (track_inv npi total t Hinv Hmap) as (t' & -> & _ & Hmap' & Hobj & _); [lia|].
    cbn [fst]. rewrite Hmap', lookup_insert_eq. intros [= <-].
    by rewrite Hobj, deref_insert_eq. }
  destruct (top_providers t) as [|root rest] eqn:Hheap.
  { assert (_update_top_k npi total t = (t, Raise IndexError)) as ->.
    { unfold _update_top_k. unfold bind at 1. unfold get. cbv beta iota.
      by rewrite Hmap, Hheap, decide_False. }
    cbn [fst]. by rewrite Hmap. }
  destruct (d_ltb (net_fee_total (deref (objects t) root)) total) eqn:Hlt.
  - destruct (_update_top_k_evict npi total t root rest Hinv Hmap)
      as (t' & -> & _ & Hmap' & Hobj & _); [rewrite Hheap; lia|done..|].
    cbn [fst]. rewrite Hmap', lookup_insert_eq. intros [= <-].
    by rewrite Hobj, deref_insert_eq.
  - rewrite (_update_top_k_keep npi total t root rest);
      [|done|rewrite Hheap; lia|done..].
    cbn [fst]. by rewrite Hmap.
Qed.

Lemma add_claim_counts_current npi a t :
  wf_sketch (sketch t) -> tracker_inv t -> counts_current t ->
  counts_current (add_claim npi a t).1.
Proof.
  intros Hwf Hinv Hcur.
  destruct (add_claim_step npi a t Hwf Hinv)
    as (sk1 & _ & _ & _ & Hinv1 & Hrun & _ & Hcc & _).
  intros b r Hb. rewrite Hcc. rewrite Hrun in Hb |- *.
  destruct (decide (b = npi)) as [->|Hne].
  - rewrite lookup_insert_eq. cbn [default from_option].
    destruct (_update_top_k_new_entry npi _ _ r Hinv1 Hb) as [Hnone| ->].
    + rewrite (_update_top_k_admitted npi _ _ r Hinv1 Hnone Hb). cbn.
      by rewrite lookup_insert_eq.
    + cbn. by rewrite lookup_insert_eq.
  - rewrite lookup_insert_ne by done.
    destruct (_update_top_k_entries npi _ _ b r Hinv1 Hb) as [_ [[? _]|(_ & Hb0 & ->)]]; [done|].
    cbn in Hb0 |- *. by apply Hcur.
Qed.

Lemma run_claims_counts_current evs t :
  wf_sketch (sketch t) -> tracker_inv t -> counts_current t ->
  counts_current (run_claims evs t).
Proof.
  revert t. induction evs as [|[npi a] evs IH]; intros t Hwf Hinv Hcur; [done|].
  rewrite run_claims_cons.
  destruct (add_claim_step npi a t Hwf Hinv) as (sk1 & Hwf1 & _ & _ & _ & _ & Hsk & _ & Hinv').
  apply IH; [by rewrite Hsk|done|by apply add_claim_counts_current].
Qed.

(** The keys of the heap's entries are distinct. *)
Lemma tracker_inv_keys_NoDup t :
  tracker_inv t ->
  NoDup ((fun r => provider_npi (deref (objects t) r)) <$> top_providers t).
Proof.
  intros Hinv. rewrite (inv_perm _ Hinv).
  assert ((fun r => provider_npi (deref (objects t) r)) <$> (map_to_list (provider_map t)).*2
          = (map_to_list (provider_map t)).*1) as ->.
  { rewrite <-list_fmap_compose. apply list_fmap_ext.
    intros i [b r] Hi. cbn. apply list_elem_of_lookup_2, elem_of_map_to_list in Hi.
    destruct (inv_obj _ Hinv _ _ Hi) as (o & Ho & <-). by rewrite (deref_Some _ _ _ Ho). }
  apply NoDup_fst_map_to_list.
Qed.

Lemma reachable_inv (k0 w d : Z) t0 evs :
  TopProvidersTracker_init k0 w d = Ok t0 -> tracker_inv (run_claims evs t0).
Proof.
  intros Hinit. destruct (TopProvidersTracker_init_inv _ _ _ _ Hinit) as [Hinv0 _].
  by destruct (run_claims_inv evs t0 Hinv0).
Qed.

Lemma init_counts_current (k0 w d : Z) t0 :
  TopProvidersTracker_init k0 w d = Ok t0 -> counts_current t0 /\ claim_counts t0 = ∅.
Proof.
  unfold TopProvidersTracker_init. destruct (CountMinSketch_init w d); [|done].
  intros [= <-]. split; [|done]. intros b r. cbn. by rewrite lookup_empty.
Qed.

Lemma reachable_counts (k0 w d : Z) t0 evs npi :
  0 < w -> TopProvidersTracker_init k0 w d = Ok t0 ->
  claim_counts (run_claims evs t0) !! npi
  = if decide (npi ∈ evs.*1) then Some (count_claims npi evs) else None.
Proof.
  intros Hw Hinit. destruct (TopProvidersTracker_init_inv _ _ _ _ Hinit) as [Hinv0 _].
  destruct (init_counts_current _ _ _ _ Hinit) as [_ Hcc0].
  rewrite run_claims_counts; [|by eapply TopProvidersTracker_init_wf|done].
  by rewrite Hcc0, lookup_empty.
Qed.

Lemma reachable_entry_counts (k0 w d : Z) t0 evs r :
  0 < w -> TopProvidersTracker_init k0 w d = Ok t0 ->
  r ∈ top_providers (run_claims evs t0) ->
  claim_count (deref (objects (run_claims evs t0)) r)
  = count_claims (provider_npi (deref (objects (run_claims evs t0)) r)) evs.
Proof.
  intros Hw Hinit Hr. destruct (TopProvidersTracker_init_inv _ _ _ _ Hinit) as [Hinv0 _].
  destruct (init_counts_current _ _ _ _ Hinit) as [Hcur0 _].
  pose proof (TopProvidersTracker_init_wf _ _ _ _ Hw Hinit) as Hwf0.
  pose proof (run_claims_counts_current evs t0 Hwf0 Hinv0 Hcur0) as Hcur.
  destruct (inv_heap_in_map _ r (reachable_inv _ _ _ _ evs Hinit) Hr) as (o & Ho & Hmap).
  rewrite (Hcur _ _ Hmap), (deref_Some _ _ _ Ho), (reachable_counts k0 w d) by done.
  case_decide as Hin; [done|]. by rewrite count_claims_notin.
Qed.

Lemma top_k_view_eq t :
  top_k_view t
  = (fun r => let o := deref (objects t) r in
              (provider_npi o, net_fee_total o, claim_count o))
      <$> sorted_desc d_ltb (fun x => net_fee_total (deref (objects t) x)) (top_providers t).
Proof. done. Qed.

Lemma top_k_view_perm t :
  top_k_view t
  ≡ₚ (fun r => let o := deref (objects t) r in
               (provider_npi o, net_fee_total o, claim_count o)) <$> top_providers t.
Proof. rewrite top_k_view_eq. by rewrite sorted_desc_perm. Qed.

Lemma add_claim_sketch npi a t :
  tracker_inv t -> sketch (add_claim npi a t).1 = (add npi a (sketch t)).1.
Proof.
  intros Hinv. unfold add_claim. unfold bind at 1. rewrite on_sketch_run.
  destruct (add npi a (sketch t)) as [sk1 [[]|e]]; cbn [fst snd]; [|done].
  unfold bind at 1. cbn [modify]. unfold bind at 1. rewrite on_sketch_run.
  cbn [sketch set_claim_counts set_sketch].
  pose proof (readonly_estimate npi sk1) as Hro.
  destruct (estimate npi sk1) as [sk2 [est|e]]; cbn in Hro; subst sk2; cbn [fst snd]; [|done].
  match goal with |- sketch (_update_top_k _ _ ?t1).1 = _ =>
    destruct (_update_top_k_frame npi est t1) as [-> _]; [|done] end.
  by apply (tracker_inv_counted npi sk1 t).
Qed.

(** X6.  The tracker's sketch is fed every claim: after any
    sequence of [add_claim] calls on a freshly built tracker, its
    sketch is the one the same sequence of [add] calls leaves of the
    fresh sketch, whether the calls returned or raised. *)
Theorem tracker_sketch_follows_claims (k0 w d : Z) t0 evs :
  TopProvidersTracker_init k0 w d = Ok t0 ->
  sketch (run_claims evs t0) = run_adds evs (sketch t0).
Proof.
  intros Hinit. destruct (TopProvidersTracker_init_inv _ _ _ _ Hinit) as [Hinv0 _].
  clear Hinit. revert t0 Hinv0.
  induction evs as [|[npi a] evs IH]; intros t Hinv; [done|].
  rewrite run_claims_cons. destruct (add_claim_inv npi a t Hinv) as [Hinv' _].
  rewrite IH by done. by rewrite add_claim_sketch.
Qed.

(** X9.  [get_top_k] never lists a provider twice: after any
    sequence of [add_claim] calls on a freshly built tracker, the
    providers of the entries it returns are pairwise distinct. *)
Theorem top_k_lists_each_provider_once (k0 w d : Z) t0 evs :
  TopProvidersTracker_init k0 w d = Ok t0 ->
  NoDup ((top_k_view (run_claims evs t0)).*1.*1).
Proof.
  intros Hinit. rewrite top_k_view_perm, <-!list_fmap_compose.
  by eapply tracker_inv_keys_NoDup, reachable_inv.
Qed.

(** X11.  A claim for a provider that is tracked refreshes its
    entry in place: when [add] and [estimate] return, [add_claim]
    returns, the dictionary is unchanged, the heap holds the same
    entries, the provider's entry carries the new estimate and its
    claim count raised by one, and no other entry is touched. *)
Theorem tracked_provider_is_refreshed (k0 w d : Z) t0 evs t npi a est r :
  TopProvidersTracker_init k0 w d = Ok t0 ->
  t = run_claims evs t0 ->
  provider_map t !! npi = Some r ->
  (add npi a (sketch t)).2 = Ok tt ->
  (estimate npi (add npi a (sketch t)).1).2 = Ok est ->
  exists t', add_claim npi a t = (t', Ok tt)
    /\ provider_map t' = provider_map t
    /\ top_providers t' ≡ₚ top_providers t
    /\ deref (objects t') r
       = {| provider_npi := npi; net_fee_total := est;
            claim_count := default 0 (claim_counts t !! npi) + 1 |}
    /\ forall r', r' <> r -> objects t' !! r' = objects t !! r'.
Proof.
  intros Hinit -> Hmap Hadd Hest.
  pose proof (reachable_inv _ _ _ _ evs Hinit) as Hinv.
  set (t := run_claims evs t0) in *.
  destruct (add npi a (sketch t)) as [sk1 [[]|]] eqn:Hadd'; [|done].
  cbn [fst] in Hest.
  destruct (estimate npi sk1) as [sk2 res] eqn:Hest'. cbn [snd] in Hest. subst res.
  rewrite (add_claim_run npi a t sk1 sk2 est Hadd' Hest').
  destruct (_update_top_k_tracked npi est (counted npi sk1 t) r)
    as (t' & -> & Hinv' & Hmap' & Hobj & Hother & _); [by apply tracker_inv_counted|done|].
  exists t'. split_and!; try done.
  - by rewrite (inv_perm _ Hinv'), Hmap', (inv_perm _ Hinv).
  - rewrite (deref_Some _ _ _ Hobj). cbn. by rewrite lookup_insert_eq.
Qed.

(** X12.  When the heap is full and the estimate of a provider
    that is not tracked is above the total of [top_providers[0]], that
    root entry is the one evicted: its provider leaves the dictionary,
    the new provider enters it with a fresh entry holding the estimate
    and its claim count, the heap keeps its size, and the entries that
    stay are untouched. *)
Theorem larger_estimate_evicts_root (k0 w d : Z) t0 evs t npi a est root rest :
  TopProvidersTracker_init k0 w d = Ok t0 ->
  t = run_claims evs t0 ->
  provider_map t !! npi = None ->
  Z.of_nat (length (top_providers t)) = k t ->
  top_providers t = root :: rest ->
  (add npi a (sketch t)).2 = Ok tt ->
  (estimate npi (add npi a (sketch t)).1).2 = Ok est ->
  d_ltb (net_fee_total (deref (objects t) root)) est = true ->
  exists t' r, add_claim npi a t = (t', Ok tt)
    /\ provider_map t'
       = <[npi := r]> (delete (provider_npi (deref (objects t) root)) (provider_map t))
    /\ provider_map t !! provider_npi (deref (objects t) root) = Some root
    /\ length (top_providers t') = length (top_providers t)
    /\ deref (objects t') r
       = {| provider_npi := npi; net_fee_total := est;
            claim_count := default 0 (claim_counts t !! npi) + 1 |}
    /\ forall r', r' ∈ top_providers t -> deref (objects t') r' = deref (objects t) r'.
Proof.
  intros Hinit -> Hmap Hfull Hheap Hadd Hest Hlt.
  pose proof (reachable_inv _ _ _ _ evs Hinit) as Hinv.
  set (t := run_claims evs t0) in *.
  destruct (add npi a (sketch t)) as [sk1 [[]|]] eqn:Hadd'; [|done].
  cbn [fst] in Hest.
  destruct (estimate npi sk1) as [sk2 res] eqn:Hest'. cbn [snd] in Hest. subst res.
  rewrite (add_claim_run npi a t sk1 sk2 est Hadd' Hest').
  destruct (_update_top_k_evict npi est (counted npi sk1 t) root rest)
    as (t' & -> & Hinv' & Hmap' & Hobj & _);
    [by apply tracker_inv_counted|done|cbn; lia|done..|].
  cbn in Hmap', Hobj.
  destruct (inv_heap_in_map t root Hinv) as (o & Ho & Hroot); [rewrite Hheap; set_solver|].
  rewrite (deref_Some _ _ _ Ho) in *.
  exists t', (next_ref t). split_and!; try done.
  - apply Nat2Z.inj. rewrite (tracker_inv_length _ Hinv'), (tracker_inv_length _ Hinv), Hmap'.
    rewrite map_size_insert_None by (rewrite lookup_delete_ne; [done|congruence]).
    pose proof (map_size_delete_Some (provider_npi o) (provider_map t) (mk_is_Some _ _ Hroot))
      as Hsz.
    assert (size (provider_map t) <> 0%nat).
    { intros Hz. apply map_size_empty_inv in Hz. by rewrite Hz in Hroot. }
    lia.
  - rewrite Hobj, deref_insert_eq. cbn. by rewrite lookup_insert_eq.
  - intros r' Hr'. apply (inv_fresh _ Hinv) in Hr'. unfold deref.
    rewrite Hobj, lookup_insert_ne; [done|lia].
Qed.

End counts.

Lemma tracker_sketch_follows_claims_witness :
  exists t0,
    @TopProvidersTracker_init CPython.runtime 3 8 2 = Ok t0
    /\ sketch (@run_claims CPython.runtime test_claims t0)
       = @run_adds CPython.runtime test_claims (sketch t0).
Proof.
  eexists. split; [reflexivity|].
  apply (@tracker_sketch_follows_claims CPython.runtime 3 8 2). reflexivity.
Defined.

Lemma top_k_lists_each_provider_once_witness :
  exists t0,
    @TopProvidersTracker_init CPython.runtime 3 8 2 = Ok t0
    /\ NoDup ((@top_k_view CPython.runtime (@run_claims CPython.runtime test_claims t0)).*1.*1).
Proof.
  eexists. split; [reflexivity|].
  apply (@top_k_lists_each_provider_once CPython.runtime 3 8 2); reflexivity.
Defined.

Lemma tracked_provider_is_refreshed_witness :
  exists t0 t,
    @TopProvidersTracker_init CPython.runtime 1 4 2 = Ok t0
    /\ t = @run_claims CPython.runtime [("npi1", CPython.DFin 10000 (-2))] t0
    /\ exists t', @add_claim CPython.runtime "npi1" (CPython.DFin 5000 (-2)) t = (t', Ok tt)
         /\ provider_map t' = provider_map t
         /\ top_providers t' ≡ₚ top_providers t
         /\ deref (objects t') 0%nat
            = @Build_ProviderNetFee CPython.runtime "npi1" (CPython.DFin 1500 (-1))
                (default 0 (claim_counts t !! "npi1") + 1)
         /\ forall r', r' <> 0%nat -> objects t' !! r' = objects t !! r'.
Proof.
  eexists _, _. split; [reflexivity|]. split; [reflexivity|].
  eapply (@tracked_provider_is_refreshed CPython.runtime 1 4 2 _
           [("npi1", CPython.DFin 10000 (-2))]);
    [reflexivity|reflexivity|vm_compute; reflexivity..].
Defined.

Lemma larger_estimate_evicts_root_witness :
  exists t0 t,
    @TopProvidersTracker_init CPython.runtime 1 4 2 = Ok t0
    /\ t = @run_claims CPython.runtime [("npi1", CPython.DFin 10000 (-2))] t0
    /\ exists t' r, @add_claim CPython.runtime "npi2" (CPython.DFin 20000 (-2)) t = (t', Ok tt)
         /\ provider_map t'
            = <[ "npi2" := r ]> (delete (provider_npi (deref (objects t) 0%nat)) (provider_map t))
         /\ provider_map t !! provider_npi (deref (objects t) 0%nat) = Some 0%nat
         /\ length (top_providers t') = length (top_providers t)
         /\ deref (objects t') r
            = @Build_ProviderNetFee CPython.runtime "npi2" (CPython.DFin 2000 (-1))
                (default 0 (claim_counts t !! "npi2") + 1)
         /\ forall r', r' ∈ top_providers t -> deref (objects t') r' = deref (objects t) r'.
Proof.
  eexists _, _. split; [reflexivity|]. split; [reflexivity|].
  eapply (@larger_estimate_evicts_root CPython.runtime 1 4 2 _
           [("npi1", CPython.DFin 10000 (-2))] _ "npi2" (CPython.DFin 20000 (-2))
           (CPython.DFin 2000 (-1)) 0%nat []);
    [reflexivity|reflexivity|vm_compute; reflexivity..].
Defined.

(** ** How full the heap is *)
Section fill.
Context {R : Runtime}.
Implicit Types (t : TopProvidersTracker).

(** Until the heap is full every key seen is tracked; from then on it
    stays full. *)
Lemma add_claim_fill npi a t (seen : gset string) :
  wf_sketch (sketch t) -> tracker_inv t -> 0 <= k t ->
  dom (provider_map t) ⊆ seen ->
  (Z.of_nat (size (provider_map t)) < k t -> dom (provider_map t) = seen) ->
  dom (provider_map (add_claim npi a t).1) ⊆ {[npi]} ∪ seen
  /\ (Z.of_nat (size (provider_map (add_claim npi a t).1)) < k t ->
      dom (provider_map (add_claim npi a t).1) = {[npi]} ∪ seen).
Proof.
  intros Hwf Hinv Hk Hsub Hfill.
  destruct (add_claim_step npi a t Hwf Hinv) as (sk1 & _ & _ & _ & Hinv1 & -> & _).
  set (t1 := counted npi sk1 t) in *. set (est := of_float _).
  assert (provider_map t1 = provider_map t /\ top_providers t1 = top_providers t
          /\ k t1 = k t /\ objects t1 = objects t) as (Hm1 & Hh1 & Hk1 & Ho1) by done.
  pose proof (tracker_inv_length t Hinv) as Hlen.
  destruct (provider_map t !! npi) as [r|] eqn:Hmap.
  { destruct (_update_top_k_tracked npi est t1 r Hinv1)
      as (t' & -> & _ & Hmap' & _); [by rewrite Hm1|].
    cbn [fst]. rewrite Hmap', Hm1. apply elem_of_dom_2 in Hmap.
    split; [set_solver|]. intros Hlt. rewrite (Hfill Hlt). set_solver. }
  destruct (decide (Z.of_nat (length (top_providers t)) < k t)) as [Hroom|Hfull].
  { rewrite _update_top_k_room by (by rewrite ?Hm1, ?Hh1, ?Hk1).
    destruct (track_inv npi est t1 Hinv1) as (t' & -> & _ & Hmap' & _);
      [by rewrite Hm1|rewrite Hh1, Hk1; lia|].
    cbn [fst]. rewrite Hmap', Hm1, dom_insert_L.
    rewrite Hfill by lia. set_solver. }
  assert (k t <= Z.of_nat (size (provider_map t))) as Hfull' by lia.
  destruct (top_providers t) as [|root rest] eqn:Hheap.
  { assert (_update_top_k npi est t1 = (t1, Raise IndexError)) as ->.
    { unfold _update_top_k. unfold bind at 1. unfold get. cbv beta iota.
      rewrite Hm1, Hmap, Hh1, decide_False; [done|]. rewrite Hk1. cbn [length] in *. lia. }
    cbn [fst]. rewrite Hm1. split; [set_solver|lia]. }
  destruct (d_ltb (net_fee_total (deref (objects t1) root)) est) eqn:Hlt.
  - destruct (_update_top_k_evict npi est t1 root rest Hinv1)
      as (t' & -> & Hinv' & Hmap' & _);
      [by rewrite Hm1|rewrite Hh1, Hk1; lia|done..|].
    cbn [fst]. rewrite Hm1 in Hmap'.
    destruct (inv_heap_in_map t root Hinv) as (o & Ho & Hroot); [rewrite Hheap; set_solver|].
    rewrite Ho1, (deref_Some _ _ _ Ho) in Hmap'.
    split.
    + rewrite Hmap', dom_insert_L, dom_delete_L. set_solver.
    + rewrite Hmap', map_size_insert_None by (rewrite lookup_delete_ne; [done|congruence]).
      pose proof (map_size_delete_Some (provider_npi o) (provider_map t) (mk_is_Some _ _ Hroot)).
      assert (size (provider_map t) <> 0%nat).
      { intros Hz. apply map_size_empty_inv in Hz. by rewrite Hz in Hroot. }
      lia.
  - rewrite (_update_top_k_keep npi est t1 root rest);
      [|by rewrite Hm1|rewrite Hh1, Hk1; lia|done..].
    cbn [fst]. rewrite Hm1. split; [set_solver|lia].
Qed.

Lemma run_claims_fill evs t (seen : gset string) :
  wf_sketch (sketch t) -> tracker_inv t -> 0 <= k t ->
  dom (provider_map t) ⊆ seen ->
  (Z.of_nat (size (provider_map t)) < k t -> dom (provider_map t) = seen) ->
  dom (provider_map (run_claims evs t)) ⊆ list_to_set (evs.*1) ∪ seen
  /\ (Z.of_nat (size (provider_map (run_claims evs t))) < k t ->
      dom (provider_map (run_claims evs t)) = list_to_set (evs.*1) ∪ seen).
Proof.
  revert t seen. induction evs as [|[npi a] evs IH]; intros t seen Hwf Hinv Hk Hsub Hfill.
  { cbn. split; [set_solver|]. intros Hlt. rewrite (Hfill Hlt). set_solver. }
  rewrite run_claims_cons.
  destruct (add_claim_fill npi a t seen Hwf Hinv Hk Hsub Hfill) as [Hsub' Hfill'].
  destruct (add_claim_step npi a t Hwf Hinv) as (sk1 & Hwf1 & _ & _ & _ & _ & Hsk & _ & Hinv').
  destruct (add_claim_inv npi a t Hinv) as [_ Hk'].
  destruct (IH (add_claim npi a t).1 ({[npi]} ∪ seen)) as [H1 H2];
    rewrite ?Hk', ?Hsk; try done.
  cbn [fmap list_fmap fst list_to_set].
  replace ({[npi]} ∪ list_to_set evs.*1 ∪ seen : gset string)
    with (list_to_set evs.*1 ∪ ({[npi]} ∪ seen) : gset string) by set_solver.
  rewrite Hk' in H2. by split.
Qed.

Lemma reachable_size (k0 w d : Z) t0 evs :
  0 < w -> 0 <= k0 -> TopProvidersTracker_init k0 w d = Ok t0 ->
  Z.of_nat (length (top_providers (run_claims evs t0)))
  = Z.min k0 (Z.of_nat (size (list_to_set (evs.*1) : gset string))).
Proof.
  intros Hw Hk Hinit.
  destruct (TopProvidersTracker_init_inv _ _ _ _ Hinit) as [Hinv0 Hk0].
  pose proof (TopProvidersTracker_init_wf _ _ _ _ Hw Hinit) as Hwf0.
  assert (provider_map t0 = ∅) as Hempty.
  { revert Hinit. unfold TopProvidersTracker_init.
    destruct (CountMinSketch_init w d); [|done]. by intros [= <-]. }
  destruct (run_claims_fill evs t0 ∅ Hwf0 Hinv0) as [Hsub Hfill].
  { lia. } { rewrite Hempty. set_solver. } { by rewrite Hempty, dom_empty_L. }
  pose proof (reachable_inv _ _ _ _ evs Hinit) as Hinv.
  rewrite (tracker_inv_length _ Hinv).
  pose proof (inv_size _ Hinv) as Hsz. rewrite (tracker_inv_length _ Hinv) in Hsz.
  destruct (run_claims_inv evs t0 Hinv0) as [_ Hkk]. rewrite Hkk, Hk0 in Hsz.
  rewrite Hk0 in Hfill.
  rewrite <-size_dom in *.
  apply subseteq_size in Hsub as Hle.
  replace (list_to_set evs.*1 ∪ ∅ : gset string) with (list_to_set evs.*1 : gset string)
    in * by set_solver.
  destruct (decide (Z.of_nat (size (dom (provider_map (run_claims evs t0)))) < k0)) as [Hlt|Hge].
  - rewrite (Hfill Hlt) in *. lia.
  - lia.
Qed.

End fill.

(** ** Counts and sizes under Python's arithmetic

    With finite amounts, which is where the decimal addition of [add]
    cannot raise in Python. *)
Section python.
#[local] Existing Instance CPython.runtime.




End python.




(** ** The global tracker and [get_top_providers] *)
Section repository_facts.
Context {R : Runtime}.
Implicit Types (t : TopProvidersTracker).

Lemma default_tracker_builds :
  exists t, TopProvidersTracker_init 10 2719 5 = Ok t
    /\ k t = 10 /\ width (sketch t) = 2719 /\ depth (sketch t) = 5
    /\ top_providers t = [] /\ provider_map t = ∅ /\ claim_counts t = ∅.
Proof.
  unfold TopProvidersTracker_init, CountMinSketch_init, np_zeros.
  rewrite decide_False by lia. eexists. split; [reflexivity|]. by cbn.
Qed.

Lemma get_tracker_Some t : get_tracker (Some t) = (Some t, Ok t).
Proof. done. Qed.

Lemma get_top_providers_Some limit t :
  get_top_providers limit (Some t)
  = (Some t,
     Ok (imap (fun idx provider =>
                 let o := deref (objects t) provider in
                 {| row_provider_npi := provider_npi o;
                    row_total_net_fees := net_fee_total o;
                    row_claim_count := claim_count o;
                    row_rank := Z.of_nat idx + 1 |})
              (py_slice_to limit
                 (sorted_desc d_ltb (fun x => net_fee_total (deref (objects t) x))
                    (top_providers t))))).
Proof. done. Qed.

Lemma length_py_slice_to {A} (n : Z) (l : list A) :
  Z.of_nat (length (py_slice_to n l))
  = if decide (0 <= n) then Z.min n (Z.of_nat (length l))
    else Z.max 0 (Z.of_nat (length l) + n).
Proof.
  unfold py_slice_to. case_decide; rewrite length_take; lia.
Qed.

(** X13.  [get_top_providers(limit)] returns the first entries
    of [get_top_k()], ranked 1, 2, ... in that order, and leaves the
    tracker as it was.  For [limit >= 0] it returns [min(limit, n)] of
    the [n] entries; a negative [limit] is not refused: it returns all
    but the last [-limit] entries, as Python's slice does. *)
Theorem get_top_providers_limit t limit :
  exists rows l,
    get_top_providers limit (Some t) = (Some t, Ok rows)
    /\ (get_top_k t).2 = Ok l
    /\ Z.of_nat (length rows)
       = (if decide (0 <= limit) then Z.min limit (Z.of_nat (length l))
          else Z.max 0 (Z.of_nat (length l) + limit))
    /\ forall i row, rows !! i = Some row ->
         row_rank row = Z.of_nat i + 1
         /\ exists r, l !! i = Some r
              /\ row_provider_npi row = provider_npi (deref (objects t) r)
              /\ row_total_net_fees row = net_fee_total (deref (objects t) r)
              /\ row_claim_count row = claim_count (deref (objects t) r).
Proof.
  eexists _, _. split; [apply get_top_providers_Some|]. split; [reflexivity|].
  split.
  - by rewrite length_imap, length_py_slice_to.
  - intros i row. rewrite list_lookup_imap.
    destruct (py_slice_to limit _ !! i) as [r|] eqn:Hr; [|done].
    cbn. intros [= <-]. split; [done|]. exists r. split; [|done].
    revert Hr. unfold py_slice_to. case_decide; intros Hr;
      apply lookup_take_Some in Hr; tauto.
Qed.

(** X14.  [reset_tracker] forgets every claim: whatever the
    global held, it puts a tracker built with the defaults
    [k=10, width=2719, depth=5] in its place, which [get_tracker] then
    returns without replacing it, and [get_top_providers] returns the
    empty list for every [limit]; so it does in a process where no
    tracker was built yet. *)
Theorem reset_tracker_forgets_every_claim (g : module_state) limit :
  exists t,
    TopProvidersTracker_init 10 2719 5 = Ok t
    /\ reset_tracker g = (Some t, Ok tt)
    /\ get_tracker None = (Some t, Ok t)
    /\ get_tracker (Some t) = (Some t, Ok t)
    /\ get_top_providers limit (Some t) = (Some t, Ok [])
    /\ get_top_providers limit None = (Some t, Ok []).
Proof.
  destruct default_tracker_builds as (t & Hinit & _ & _ & _ & Hheap & _).
  exists t.
  assert (get_top_providers limit (Some t) = (Some t, Ok [])) as Htop.
  { rewrite get_top_providers_Some, Hheap. cbn. unfold py_slice_to.
    by case_decide; rewrite take_nil. }
  split_and!; try done.
  - unfold reset_tracker, bind, call. by rewrite Hinit.
  - unfold get_tracker, bind, get, call. by rewrite Hinit.
  - rewrite <-Htop. unfold get_top_providers. unfold bind at 1.
    unfold get_tracker at 1. unfold bind at 1. unfold get at 1. cbv beta iota.
    unfold bind at 1. unfold call at 1. rewrite Hinit. done.
Qed.

End repository_facts.

(** ** [heapq] keeps its invariant

    [heap[k] <= heap[2*k+1]] and [heap[k] <= heap[2*k+2]] are kept by
    [heappush], [heappop] and [heapify] when [<] is asymmetric and [<=]
    ([a <= b] read as [not (b < a)]) is transitive on the elements of
    the list.  [good] marks such elements: a [Decimal] NaN is not one,
    nothing is below it and it is below nothing. *)

Lemma child_of_parent c p : child_of c p -> ((c - 1) / 2)%nat = p /\ (p < c)%nat.
Proof.
  intros [-> | ->]; (split; [|lia]); symmetry.
  - apply (Nat.div_unique _ 2 p 0); lia.
  - apply (Nat.div_unique _ 2 p 1); lia.
Qed.

Lemma parent_child_of c : (0 < c)%nat -> child_of c ((c - 1) / 2)%nat.
Proof.
  intros Hc. pose proof (Nat.div_mod_eq (c - 1) 2) as Hd.
  pose proof (Nat.mod_upper_bound (c - 1) 2) as Hm. unfold child_of. lia.
Qed.

Lemma below_le start pos : below start pos -> (start <= pos)%nat.
Proof.
  induction 1 as [|p c _ IH Hc]; [done|]. apply child_of_parent in Hc. lia.
Qed.

Lemma below_parent start pos :
  below start pos -> (start < pos)%nat ->
  below start ((pos - 1) / 2)%nat /\ child_of pos ((pos - 1) / 2)%nat
  /\ (start <= (pos - 1) / 2)%nat.
Proof.
  intros Hb Hlt. destruct Hb as [|p c Hp Hc]; [lia|].
  destruct (child_of_parent _ _ Hc) as [-> _]. split_and!; [done..|by apply below_le].
Qed.

Lemma below_0 pos : below 0 pos.
Proof.
  induction (lt_wf pos) as [pos _ IH]. destruct pos as [|pos]; [constructor|].
  apply (below_child _ ((S pos - 1) / 2)%nat).
  - apply IH. pose proof (parent_child_of (S pos)). unfold child_of in *. lia.
  - apply parent_child_of. lia.
Qed.

Section heap_order.
Context {A : Type} (lt : A -> A -> bool) (good : A -> Prop).
Implicit Types (heap : list A).

Hypothesis lt_asym : forall a b, good a -> good b -> lt a b = true -> lt b a = false.
Hypothesis le_trans : forall a b c, good a -> good b -> good c ->
  lt b a = false -> lt c b = false -> lt c a = false.

Lemma heap_lt_irrefl a : good a -> lt a a = false.
Proof using lt_asym.
  intros Ha. destruct (lt a a) eqn:E; [|done]. by rewrite (lt_asym a a Ha Ha E) in E.
Qed.

(** [newitem] put at [pos] of a list that is ordered everywhere else. *)
Lemma insert_ordered heap newitem start pos :
  (forall p c x y, (start <= p)%nat -> child_of c p -> c <> pos ->
     heap !! p = Some x -> heap !! c = Some y -> lt y x = false) ->
  (forall c y, child_of c pos -> heap !! c = Some y -> lt y newitem = false) ->
  ((start < pos)%nat -> forall g, heap !! ((pos - 1) / 2)%nat = Some g -> lt newitem g = false) ->
  heap_ordered_from lt start (<[pos := newitem]> heap).
Proof.
  intros H1 H2 H4 p c x y Hp Hc Hx Hy.
  destruct (child_of_parent _ _ Hc) as [Hpar Hpc].
  apply list_lookup_insert_Some in Hx as [(<- & <- & _)|[Hne Hx]];
    apply list_lookup_insert_Some in Hy as [(Heq & <- & _)|[Hne' Hy]]; try lia.
  - by eapply H2.
  - subst c. apply H4; [lia|]. by rewrite Hpar.
  - eapply H1; eauto.
Qed.

(** The loop of [_siftdown]: the list is ordered but for the pair of
    [pos] and its parent; the children of [pos] are not below
    [newitem], nor below the parent of [pos]. *)
Lemma _siftdown_loop_ordered fuel heap newitem start pos :
  (pos <= fuel)%nat -> Forall good heap -> good newitem -> below start pos ->
  (forall p c x y, (start <= p)%nat -> child_of c p -> c <> pos ->
     heap !! p = Some x -> heap !! c = Some y -> lt y x = false) ->
  (forall c y, child_of c pos -> heap !! c = Some y -> lt y newitem = false) ->
  (forall c y g, (start < pos)%nat -> child_of c pos ->
     heap !! ((pos - 1) / 2)%nat = Some g -> heap !! c = Some y -> lt y g = false) ->
  heap_ordered_from lt start (_siftdown_loop lt fuel heap newitem start pos).
Proof using lt_asym le_trans.
  revert heap pos. induction fuel as [|fuel IH];
    intros heap pos Hfuel Hgood Hnew Hbelow H1 H2 H3; cbn [_siftdown_loop].
  { apply insert_ordered; [done..|lia]. }
  case_decide as Hlt; [|apply insert_ordered; [done..|lia]].
  destruct (heap !! ((pos - 1) / 2)%nat) as [parent|] eqn:Hparent;
    [|apply insert_ordered; [done..|intros _ g Hg; congruence]].
  destruct (lt newitem parent) eqn:Hcmp;
    [|apply insert_ordered; [done..|intros _ g Hg; congruence]].
  destruct (below_parent _ _ Hbelow Hlt) as (Hbelow' & Hchild & Hstart).
  destruct (child_of_parent _ _ Hchild) as [_ Hpp].
  assert (good parent) as Hgp by (eapply Forall_lookup_1; eauto).
  assert (lt parent newitem = false) as Hle by (by apply lt_asym).
  apply IH; [lia|by apply Forall_insert|done|done|..].
  - intros p c x y Hp Hc Hne Hx Hy.
    destruct (child_of_parent _ _ Hc) as [Hpar Hpc].
    apply list_lookup_insert_Some in Hx as [(<- & <- & _)|[Hnx Hx]];
      apply list_lookup_insert_Some in Hy as [(Heq & <- & _)|[Hny Hy]]; try lia.
    + by eapply H3.
    + subst c. rewrite Hpar in Hparent. rewrite Hparent in Hx. injection Hx as <-.
      by apply heap_lt_irrefl.
    + eapply H1; eauto.
  - intros c y Hc Hy.
    apply list_lookup_insert_Some in Hy as [(<- & <- & _)|[Hny Hy]]; [done|].
    apply (le_trans newitem parent y); [done|done| |done|].
    + by eapply Forall_lookup_1.
    + apply (H1 ((pos - 1) / 2)%nat c parent y); [done|done|lia|done|done].
  - intros c y g Hlt' Hc Hg Hy.
    destruct (below_parent _ _ Hbelow' Hlt') as (_ & Hchild' & Hstart').
    destruct (child_of_parent _ _ Hchild') as [_ Hgp'].
    rewrite list_lookup_insert_ne in Hg by lia.
    assert (lt parent g = false) as Hgpar.
    { eapply (H1 _ _ g parent Hstart' Hchild'); [lia|done..]. }
    apply list_lookup_insert_Some in Hy as [(<- & <- & _)|[Hny Hy]]; [done|].
    apply (le_trans g parent y); [by eapply Forall_lookup_1|done| |done|].
    + by eapply Forall_lookup_1.
    + apply (H1 ((pos - 1) / 2)%nat c parent y); [done|done|lia|done|done].
Qed.

(** [_siftdown] from a leaf. *)
Lemma _siftdown_ordered heap start pos :
  Forall good heap -> below start pos ->
  (forall p c x y, (start <= p)%nat -> child_of c p -> c <> pos ->
     heap !! p = Some x -> heap !! c = Some y -> lt y x = false) ->
  (forall c, child_of c pos -> heap !! c = None) ->
  heap_ordered_from lt start (_siftdown lt heap start pos).
Proof using lt_asym le_trans.
  intros Hgood Hbelow H1 Hleaf. unfold _siftdown.
  destruct (heap !! pos) as [newitem|] eqn:Hpos.
  - apply _siftdown_loop_ordered; [done|done|by eapply Forall_lookup_1|done|done|..].
    + intros c y Hc Hy. by rewrite (Hleaf c Hc) in Hy.
    + intros c y g _ Hc _ Hy. by rewrite (Hleaf c Hc) in Hy.
  - intros p c x y Hp Hc Hx Hy. eapply H1; eauto. intros ->. congruence.
Qed.

(** [heappush] keeps the heap invariant. *)
Lemma heappush_ordered heap item :
  Forall good heap -> good item ->
  heap_ordered_from lt 0 heap -> heap_ordered_from lt 0 (heappush lt heap item).
Proof using lt_asym le_trans.
  intros Hgood Hitem Hord. unfold heappush. apply _siftdown_ordered.
  - apply Forall_app. split; [done|]. by constructor.
  - apply below_0.
  - intros p c x y Hp Hc Hne Hx Hy.
    destruct (child_of_parent _ _ Hc) as [_ Hpc].
    apply lookup_lt_Some in Hy as Hlen. rewrite length_app in Hlen. cbn in Hlen.
    rewrite lookup_app_l in Hx, Hy by lia. eapply Hord; eauto.
  - intros c Hc. destruct (child_of_parent _ _ Hc) as [_ Hpc].
    apply lookup_ge_None. rewrite length_app. cbn. lia.
Qed.

(** The first loop of [_siftup]: the hole travels to a leaf, and the
    list stays ordered in every pair that does not involve the hole. *)
Lemma _siftup_loop_ordered fuel heap start pos heap' leaf :
  (length heap <= fuel + pos)%nat -> Forall good heap -> below start pos ->
  (pos < length heap)%nat ->
  (forall p c x y, (start <= p)%nat -> child_of c p -> p <> pos -> c <> pos ->
     heap !! p = Some x -> heap !! c = Some y -> lt y x = false) ->
  (forall c y g, (start < pos)%nat -> child_of c pos ->
     heap !! ((pos - 1) / 2)%nat = Some g -> heap !! c = Some y -> lt y g = false) ->
  _siftup_loop lt fuel heap pos (2 * pos + 1)%nat = (heap', leaf) ->
  Forall good heap' /\ below start leaf /\ (leaf < length heap')%nat
  /\ (length heap' <= 2 * leaf + 1)%nat
  /\ (forall p c x y, (start <= p)%nat -> child_of c p -> p <> leaf -> c <> leaf ->
        heap' !! p = Some x -> heap' !! c = Some y -> lt y x = false).
Proof using lt_asym le_trans.
  revert heap pos. induction fuel as [|fuel IH];
    intros heap pos Hfuel Hgood Hbelow Hpos J1 J2; cbn [_siftup_loop]; [lia|].
  case_decide as Hchild; [|intros [= <- <-]; split_and!; [done..|lia|done]].
  destruct (lookup_lt_is_Some_2 heap (2 * pos + 1)%nat Hchild) as [cl Hcl].
  rewrite Hcl.
  set (c' := match heap !! (2 * pos + 1 + 1)%nat with
             | Some r => if negb (lt cl r) then (2 * pos + 1 + 1)%nat else (2 * pos + 1)%nat
             | None => (2 * pos + 1)%nat
             end).
  assert (child_of c' pos /\ exists child, heap !! c' = Some child
          /\ forall s y, child_of s pos -> s <> c' -> heap !! s = Some y -> lt y child = false)
    as (Hc' & child & Hchild' & Hsmall).
  { subst c'. destruct (heap !! (2 * pos + 1 + 1)%nat) as [r|] eqn:Hr.
    - assert (good cl /\ good r) as [Hgl Hgr] by (split; eapply Forall_lookup_1; eauto).
      destruct (lt cl r) eqn:Hcmp; cbn [negb].
      + split; [by left|]. exists cl. split; [done|].
        intros s y [-> | ->] Hne Hy; [done|].
        replace (2 * pos + 2)%nat with (2 * pos + 1 + 1)%nat in Hy by lia.
        rewrite Hr in Hy. injection Hy as <-. by apply lt_asym.
      + split; [right; lia|]. exists r. split; [done|].
        intros s y [-> | ->] Hne Hy; [|lia]. rewrite Hcl in Hy. by injection Hy as <-.
    - split; [by left|]. exists cl. split; [done|].
      intros s y [-> | ->] Hne Hy; [done|].
      replace (2 * pos + 2)%nat with (2 * pos + 1 + 1)%nat in Hy by lia. congruence. }
  rewrite Hchild'. destruct (child_of_parent _ _ Hc') as [Hpar Hpc].
  assert (good child) as Hgc by (eapply Forall_lookup_1; eauto).
  intros Hloop. apply IH in Hloop; [done|..].
  - rewrite length_insert. lia.
  - by apply Forall_insert.
  - by eapply below_child.
  - rewrite length_insert. by eapply lookup_lt_Some.
  - intros p c x y Hp Hc Hnp Hnc Hx Hy.
    destruct (child_of_parent _ _ Hc) as [Hpar' Hpc'].
    apply list_lookup_insert_Some in Hx as [(<- & <- & _)|[Hnx Hx]];
      apply list_lookup_insert_Some in Hy as [(Heq & <- & _)|[Hny Hy]]; try lia.
    + by eapply Hsmall.
    + subst c. eapply (J2 c' child x); [lia|done| |done]. by rewrite Hpar'.
    + eapply J1; eauto.
  - intros c y g Hlt Hc Hg Hy. rewrite Hpar in Hg.
    rewrite list_lookup_insert_eq in Hg by done. injection Hg as <-.
    destruct (child_of_parent _ _ Hc) as [_ Hcc].
    rewrite list_lookup_insert_ne in Hy by lia.
    eapply (J1 c' c child y); [apply below_le in Hbelow; lia|done|lia|lia|done..].
Qed.

(** [_siftup] at [pos] extends the invariant from the indices after
    [pos] to [pos] itself. *)
Lemma _siftup_ordered heap pos :
  Forall good heap ->
  heap_ordered_from lt (S pos) heap -> heap_ordered_from lt pos (_siftup lt heap pos).
Proof using lt_asym le_trans.
  intros Hgood Hord. unfold _siftup.
  destruct (heap !! pos) as [newitem|] eqn:Hpos.
  2:{ intros p c x y Hp Hc Hx Hy. apply lookup_ge_None in Hpos.
      apply lookup_lt_Some in Hx. lia. }
  destruct (_siftup_loop lt (length heap) heap pos (2 * pos + 1)) as [heap' leaf] eqn:Hloop.
  apply (_siftup_loop_ordered _ _ pos) in Hloop as (Hgood' & Hbelow & Hleaf & Hlen & J1);
    [|lia|done|constructor|by eapply lookup_lt_Some|..].
  - apply _siftdown_ordered.
    + apply Forall_insert; [done|]. exact (Forall_lookup_1 _ _ _ _ Hgood Hpos).
    + done.
    + intros p c x y Hp Hc Hne Hx Hy.
      destruct (child_of_parent _ _ Hc) as [_ Hpc].
      rewrite list_lookup_insert_ne in Hy by done.
      apply lookup_lt_Some in Hy as Hclen.
      rewrite list_lookup_insert_ne in Hx by (unfold child_of in Hc; lia).
      apply (J1 p c x y); [done|done| |done..]. unfold child_of in Hc. lia.
    + intros c Hc. apply lookup_ge_None. rewrite length_insert.
      unfold child_of in Hc. lia.
  - intros p c x y Hp Hc Hnp Hnc Hx Hy. apply (Hord p c x y); [lia|done..].
  - intros c y g Hlt. lia.
Qed.

(** [heapify] establishes the heap invariant, whatever the order of the
    list was. *)
Lemma heapify_ordered x : Forall good x -> heap_ordered_from lt 0 (heapify lt x).
Proof using lt_asym le_trans.
  intros Hgood. unfold heapify.
  assert (heap_ordered_from lt (length x / 2) x) as Hord.
  { intros p c a b Hp Hc Ha Hb. apply lookup_lt_Some in Hb.
    pose proof (Nat.div_mod_eq (length x) 2) as Hd.
    pose proof (Nat.mod_upper_bound (length x) 2) as Hm.
    unfold child_of in Hc. lia. }
  revert Hgood Hord. generalize (length x / 2)%nat as m. intros m. revert x.
  induction m as [|m IH]; intros x Hgood Hord; [done|].
  rewrite seq_S, reverse_snoc. cbn [foldl]. rewrite Nat.add_0_l. apply IH.
  - by rewrite _siftup_perm.
  - by apply _siftup_ordered.
Qed.

(** [heappop] keeps the heap invariant. *)
Lemma heappop_ordered heap x heap' :
  Forall good heap -> heap_ordered_from lt 0 heap ->
  heappop lt heap = Some (x, heap') -> heap_ordered_from lt 0 heap'.
Proof using lt_asym le_trans.
  intros Hgood Hord. unfold heappop.
  destruct (reverse heap) as [|lastelt rest_rev] eqn:Hrev; [done|].
  assert (heap = reverse rest_rev ++ [lastelt]) as Hheap.
  { rewrite <-(reverse_involutive heap), Hrev. by rewrite reverse_cons. }
  destruct (reverse rest_rev) as [|returnitem tl] eqn:Hinit.
  { intros [= _ <-]. intros p c a b _ _ Ha. done. }
  intros [= _ <-]. rewrite Hheap in Hgood. apply Forall_app in Hgood as [Hg1 Hg2].
  change (lastelt :: tl) with (<[0%nat := lastelt]> (returnitem :: tl)).
  apply _siftup_ordered.
  - apply Forall_insert; [done|]. by apply Forall_inv in Hg2.
  - intros p c a b Hp Hc Ha Hb. unfold child_of in Hc.
    rewrite list_lookup_insert_ne in Ha, Hb by lia.
    eapply (Hord p c); [lia|done|..]; rewrite Hheap; by apply lookup_app_l_Some.
Qed.

(** In a heap no element is less than the first. *)
Lemma heap_root_least heap root :
  Forall good heap -> heap_ordered_from lt 0 heap -> heap !! 0%nat = Some root ->
  forall i x, heap !! i = Some x -> lt x root = false.
Proof using lt_asym le_trans.
  intros Hgood Hord Hroot i. induction (lt_wf i) as [i _ IH]. intros x Hx.
  assert (good root) as Hgr by (eapply Forall_lookup_1; eauto).
  destruct i as [|i]; [rewrite Hroot in Hx; injection Hx as <-; by apply heap_lt_irrefl|].
  pose proof (parent_child_of (S i) ltac:(lia)) as Hc.
  destruct (child_of_parent _ _ Hc) as [_ Hlt].
  destruct (lookup_lt_is_Some_2 heap ((S i - 1) / 2)%nat) as [y Hy].
  { apply lookup_lt_Some in Hx. lia. }
  apply (le_trans root y x); [done|by eapply Forall_lookup_1..| |].
  - by eapply IH.
  - apply (Hord ((S i - 1) / 2)%nat (S i) y x); [lia|done..].
Qed.

End heap_order.

(** The invariant reads [lt] on the elements of the list only. *)
Lemma heap_ordered_from_ext {A} (lt lt' : A -> A -> bool) start (heap : list A) :
  (forall a b, a ∈ heap -> b ∈ heap -> lt a b = lt' a b) ->
  heap_ordered_from lt start heap -> heap_ordered_from lt' start heap.
Proof.
  intros Hext Hord p c x y Hp Hc Hx Hy. rewrite <-Hext.
  - eapply Hord; eauto.
  - by eapply list_elem_of_lookup_2.
  - by eapply list_elem_of_lookup_2.
Qed.

(** ** The order of [Decimal] on numbers *)

(** Two finite decimals are compared at any exponent below both. *)
Lemma dec_ltb_scaled (c1 e1 c2 e2 E : Z) :
  E <= e1 -> E <= e2 ->
  CPython.dec_ltb (CPython.DFin c1 e1) (CPython.DFin c2 e2)
  = (c1 * 10 ^ (e1 - E) <? c2 * 10 ^ (e2 - E)).
Proof.
  intros H1 H2.
  change (CPython.dec_ltb (CPython.DFin c1 e1) (CPython.DFin c2 e2))
    with (c1 * 10 ^ (e1 - Z.min e1 e2) <? c2 * 10 ^ (e2 - Z.min e1 e2)).
  set (m := Z.min e1 e2).
  assert (0 < 10 ^ (m - E)) as Hp by (apply Z.pow_pos_nonneg; lia).
  replace (e1 - E) with ((e1 - m) + (m - E)) by lia.
  replace (e2 - E) with ((e2 - m) + (m - E)) by lia.
  rewrite !Z.pow_add_r by lia. rewrite !Z.mul_assoc.
  destruct (Z.ltb_spec (c1 * 10 ^ (e1 - m)) (c2 * 10 ^ (e2 - m))),
           (Z.ltb_spec (c1 * 10 ^ (e1 - m) * 10 ^ (m - E))
                       (c2 * 10 ^ (e2 - m) * 10 ^ (m - E)));
    try done; nia.
Qed.

(** [<=] on decimals is transitive through a number. *)
Lemma dec_le_trans (x y z : CPython.decimal) :
  is_number y ->
  CPython.dec_ltb x y = false -> CPython.dec_ltb y z = false ->
  CPython.dec_ltb x z = false.
Proof.
  intros Hy. destruct y as [c2 e2|s2|]; [| |by destruct Hy];
    destruct x as [c1 e1|s1|], z as [c3 e3|s3|]; try done;
    try (by cbn; intros; repeat match goal with s : bool |- _ => destruct s end).
  set (E := Z.min e1 (Z.min e2 e3)).
  rewrite (dec_ltb_scaled c1 e1 c2 e2 E), (dec_ltb_scaled c2 e2 c3 e3 E),
    (dec_ltb_scaled c1 e1 c3 e3 E) by lia.
  rewrite !Z.ltb_ge. lia.
Qed.

(** ** An estimate is a number, never a NaN *)

(** [Decimal(str(x))] is a number when [x] is not a NaN. *)
Lemma shortest_go_finite fuel x num den lg n :
  exists c q, CPython.shortest_go fuel x num den lg n = CPython.DFin c q.
Proof.
  revert n. induction fuel as [|fuel IH]; intros n; cbn [CPython.shortest_go];
    destruct (if 0 <=? lg - n + 1 then _ else _) as [a b];
    repeat case_match; eauto.
Qed.

Lemma as_written_finite c q : exists c' q', CPython.as_written c q = CPython.DFin c' q'.
Proof.
  unfold CPython.as_written. destruct (CPython.strip_zeros 40 c q) as [c1 q1].
  case_match; eauto.
Qed.

Lemma decimal_of_float_number x :
  Prim2SF x <> S754_nan -> is_number (CPython.decimal_of_float x).
Proof.
  unfold CPython.decimal_of_float, is_number. destruct (Prim2SF x) as [s|s| |s m e]; try done.
  intros _. unfold CPython.shortest_decimal.
  destruct (if 0 <=? e then _ else _) as [num den].
  destruct (shortest_go_finite 17 (abs x) num den (CPython.floor_log10 num den) 1)
    as (c & q & ->).
  by destruct (as_written_finite c q) as (c' & q' & ->).
Qed.

(** What every turn of a loop keeps of the accumulator holds of the
    value the loop returns. *)
Lemma for_fold_result {S A B} (Q : B -> Prop) (l : list A) (body : A -> B -> M S B) :
  (forall x b s b', Q b -> (body x b s).2 = Ok b' -> Q b') ->
  forall acc s r, Q acc -> (for_fold l acc body s).2 = Ok r -> Q r.
Proof.
  intros Hbody. induction l as [|x l IH]; intros acc s r Hacc; cbn [for_fold].
  - by intros [= <-].
  - unfold bind. destruct (body x acc s) as [s1 [b'|e]] eqn:Hb; [|done].
    apply IH. eapply Hbody; [exact Hacc|by rewrite Hb].
Qed.

(** ** The tracker's list is a heap on the cached totals *)
Section python_heap.
#[local] Existing Instance CPython.runtime.
Implicit Types (t : TopProvidersTracker).

Lemma py_min_number (a c : float) :
  Prim2SF a <> S754_nan -> Prim2SF (py_min a c) <> S754_nan.
Proof.
  intros Ha. unfold py_min. cbn [f_ltb CPython.runtime].
  destruct (PrimFloat.ltb c a) eqn:Hlt; [|done].
  rewrite ltb_spec in Hlt. intros Hc. by rewrite Hc in Hlt.
Qed.

(** [estimate] never returns a NaN: [min] keeps its first argument
    when the comparison with a NaN counter is false. *)
Lemma estimate_number npi s est : (estimate npi s).2 = Ok est -> is_number est.
Proof.
  unfold estimate, bind. destruct (min_estimate npi s) as [s1 [m|e]] eqn:Hm; [|done].
  cbn. intros [= <-]. apply decimal_of_float_number.
  unfold min_estimate in Hm. unfold bind at 1 in Hm. unfold get in Hm.
  eapply (for_fold_result (fun x : float => Prim2SF x <> S754_nan));
    [| |exact (f_equal snd Hm)]; [|done].
  intros i b s' b' Hb. unfold bind.
  destruct (_hash npi i s') as [s2 [j|e]]; [|done].
  destruct (table_get i j s2) as [s3 [c|e]]; [|done].
  cbn. intros [= <-]. by apply py_min_number.
Qed.

Lemma ref_lt_asym (objs : gmap ref ProviderNetFee) (a b : ref) :
  ref_lt objs a b = true -> ref_lt objs b a = false.
Proof. apply dec_ltb_asym. Qed.

Lemma ref_le_trans (objs : gmap ref ProviderNetFee) (a b c : ref) :
  is_number (net_fee_total (deref objs b)) ->
  ref_lt objs b a = false -> ref_lt objs c b = false -> ref_lt objs c a = false.
Proof. intros Hb Hab Hbc. by eapply dec_le_trans. Qed.

(** The heap and the objects after [track]. *)
Lemma track_heap npi total t :
  let o := {| provider_npi := npi; net_fee_total := total;
              claim_count := default 0 (claim_counts t !! npi) |} in
  objects (track npi total t).1 = <[next_ref t := o]> (objects t)
  /\ top_providers (track npi total t).1
     = heappush (ref_lt (<[next_ref t := o]> (objects t))) (top_providers t) (next_ref t).
Proof. done. Qed.

Lemma heap_inv_track npi (total : Decimal) t :
  (forall r, r ∈ top_providers t -> (r < next_ref t)%nat) ->
  is_number total -> heap_inv t -> heap_inv (track npi total t).1.
Proof.
  intros Hfresh Htotal [Hord Hnum]. destruct (track_heap npi total t) as [Hobj Hheap].
  unfold heap_inv. rewrite Hobj, Hheap. clear Hobj Hheap.
  set (o := {| provider_npi := npi; net_fee_total := total;
               claim_count := default 0 (claim_counts t !! npi) |}).
  set (objs' := <[next_ref t := o]> (objects t)).
  assert (forall r, r ∈ top_providers t -> deref objs' r = deref (objects t) r) as Hsame.
  { intros r Hr%Hfresh. unfold deref, objs'. rewrite lookup_insert_ne; [done|lia]. }
  set (good := fun r => is_number (net_fee_total (deref objs' r))).
  assert (Forall good (top_providers t)) as Hgood.
  { apply Forall_forall. intros r Hr. unfold good. rewrite Hsame by done.
    by eapply Forall_forall in Hnum. }
  assert (good (next_ref t)) as Hnew.
  { unfold good, objs'. by rewrite deref_insert_eq. }
  split.
  - apply (heappush_ordered _ good); [|intros a b c _ Hb _; by apply ref_le_trans|done|done|].
    + intros a b _ _. apply ref_lt_asym.
    + apply (heap_ordered_from_ext (ref_lt (objects t))); [|done].
      intros a b Ha Hb. unfold ref_lt. by rewrite !Hsame.
  - rewrite heappush_perm. by constructor.
Qed.

Lemma _update_top_k_tracked_heap npi total t r :
  provider_map t !! npi = Some r ->
  top_providers (_update_top_k npi total t).1
  = heapify (ref_lt (objects (_update_top_k npi total t).1)) (top_providers t).
Proof.
  intros Hr.
  assert (_update_top_k npi total t
          = (let! _ := setattr_net_fee_total r total in
             let! _ := setattr_claim_count r (default 0 (claim_counts t !! npi)) in
             heapify_top_providers) t) as ->; [|done].
  unfold _update_top_k. unfold bind at 1. unfold get. cbv beta iota. by rewrite Hr.
Qed.

Lemma heap_inv_tracked npi (total : Decimal) t r :
  tracker_inv t -> provider_map t !! npi = Some r ->
  is_number total -> heap_inv t -> heap_inv (_update_top_k npi total t).1.
Proof.
  intros Hinv Hr Htotal [_ Hnum]. unfold heap_inv.
  rewrite (_update_top_k_tracked_heap npi total t r Hr).
  destruct (_update_top_k_tracked npi total t r Hinv Hr)
    as (t' & -> & _ & _ & Hobj & Hother & _). cbn [fst].
  set (good := fun r => is_number (net_fee_total (deref (objects t') r))).
  assert (Forall good (top_providers t)) as Hgood.
  { apply Forall_forall. intros r' Hr'. unfold good.
    destruct (decide (r' = r)) as [->|Hne].
    - by rewrite (deref_Some _ _ _ Hobj).
    - unfold deref. rewrite Hother by done. by eapply Forall_forall in Hnum. }
  split.
  - apply (heapify_ordered _ good); [|intros a b c _ Hb _; by apply ref_le_trans|done].
    intros a b _ _. apply ref_lt_asym.
  - by rewrite heapify_perm.
Qed.

(** The evicting branch of [_update_top_k]: the root is popped and
    leaves the dictionary, then the key is admitted. *)
Lemma _update_top_k_evict_run npi total t root rest :
  tracker_inv t ->
  provider_map t !! npi = None ->
  k t <= Z.of_nat (length (top_providers t)) ->
  top_providers t = root :: rest ->
  d_ltb (net_fee_total (deref (objects t) root)) total = true ->
  exists h', heappop (ref_lt (objects t)) (top_providers t) = Some (root, h')
    /\ _update_top_k npi total t
       = track npi total
           (set_provider_map (delete (provider_npi (deref (objects t) root)) (provider_map t))
              (set_top_providers h' t)).
Proof.
  intros Hinv Hnone Hlen Hheap Hlt.
  destruct (heappop (ref_lt (objects t)) (top_providers t)) as [[removed h']|] eqn:Hpop.
  2:{ apply heappop_None in Hpop. congruence. }
  destruct (heappop_Some _ _ _ _ Hpop) as [Hhd Hperm].
  rewrite Hheap in Hhd. injection Hhd as <-.
  destruct (inv_heap_in_map t root Hinv) as (o & Ho & Hmap).
  { rewrite Hheap. set_solver. }
  assert (deref (objects t) root = o) as Hd by (unfold deref; by rewrite Ho).
  exists h'. split; [done|].
  unfold _update_top_k. unfold bind at 1. unfold get. cbv beta iota.
  rewrite Hnone. rewrite decide_False by lia. rewrite Hheap, Hlt.
  unfold bind at 1. unfold heappop_top_providers. unfold bind at 1. unfold get.
  cbv beta iota. rewrite Hpop. unfold bind at 1. cbn [modify].
  cbv beta iota. unfold ret at 1. cbv beta iota.
  unfold bind at 1. unfold del_provider_map. unfold bind at 1. unfold get.
  cbv beta iota. cbn [provider_map set_top_providers].
  rewrite Hd, Hmap. cbn [modify]. cbv beta iota. done.
Qed.

Lemma _update_top_k_heap_inv npi (total : Decimal) t :
  tracker_inv t -> is_number total -> heap_inv t ->
  heap_inv (_update_top_k npi total t).1.
Proof.
  intros Hinv Htotal Hheap. destruct (provider_map t !! npi) as [r|] eqn:Hmap.
  { by eapply heap_inv_tracked. }
  destruct (decide (Z.of_nat (length (top_providers t)) < k t)) as [Hlen|Hlen].
  { rewrite _update_top_k_room by done. apply heap_inv_track; [apply Hinv|done..]. }
  destruct (top_providers t) as [|root rest] eqn:Hlist.
  { assert (_update_top_k npi total t = (t, Raise IndexError)) as ->; [|done].
    unfold _update_top_k. unfold bind at 1. unfold get. cbv beta iota.
    by rewrite Hmap, Hlist, decide_False. }
  destruct (d_ltb (net_fee_total (deref (objects t) root)) total) eqn:Hlt.
  - destruct (_update_top_k_evict_run npi total t root rest Hinv Hmap)
      as (h' & Hpop & ->); [rewrite Hlist; lia|done..|].
    destruct (heappop_Some _ _ _ _ Hpop) as [_ Hperm].
    destruct Hheap as [Hord Hnum].
    apply heap_inv_track; [|done|].
    + cbn. intros r Hr. apply (inv_fresh _ Hinv). rewrite Hperm. set_solver.
    + split; cbn.
      * eapply (heappop_ordered _ (fun r => is_number (net_fee_total (deref (objects t) r))));
          [|intros a b c _ Hb _; by apply ref_le_trans|exact Hnum|exact Hord|exact Hpop].
        intros a b _ _. apply ref_lt_asym.
      * rewrite Hperm in Hnum. by apply Forall_cons in Hnum as [_ ?].
  - rewrite (_update_top_k_keep npi total t root rest);
      [done|done|rewrite Hlist; lia|done..].
Qed.

Lemma add_claim_heap_inv npi a t :
  tracker_inv t -> heap_inv t -> heap_inv (add_claim npi a t).1.
Proof.
  intros Hinv Hheap. unfold add_claim. unfold bind at 1. rewrite on_sketch_run.
  destruct (add npi a (sketch t)).2; [|done].
  unfold bind at 1. cbn [modify]. unfold bind at 1. rewrite on_sketch_run.
  set (t2 := set_claim_counts _ _).
  destruct (estimate npi (sketch t2)).2 as [total|] eqn:Hest; [|done].
  apply _update_top_k_heap_inv.
  - by apply tracker_inv_set_sketch, tracker_inv_set_claim_counts, tracker_inv_set_sketch.
  - by eapply estimate_number.
  - done.
Qed.

Lemma run_claims_heap_inv evs t :
  tracker_inv t -> heap_inv t -> heap_inv (run_claims evs t).
Proof.
  revert t. induction evs as [|[npi a] evs IH]; intros t Hinv Hheap; [done|].
  rewrite run_claims_cons. apply IH.
  - by apply add_claim_inv.
  - by apply add_claim_heap_inv.
Qed.

(** X15.  [top_providers] is a min-heap on the cached totals in every
    state reached from a freshly built tracker by [add_claim] calls
    (returned or raised): no entry is less than its parent, so no
    entry's cached total is below that of [top_providers[0]], the
    entry that is compared with a new estimate and evicted. *)
Theorem top_providers_is_a_min_heap (k0 w d : Z) t0 evs :
  TopProvidersTracker_init k0 w d = Ok t0 ->
  heap_ordered_from (ref_lt (objects (run_claims evs t0))) 0 (top_providers (run_claims evs t0))
  /\ forall root r,
       head (top_providers (run_claims evs t0)) = Some root ->
       r ∈ top_providers (run_claims evs t0) ->
       d_ltb (net_fee_total (deref (objects (run_claims evs t0)) r))
             (net_fee_total (deref (objects (run_claims evs t0)) root)) = false.
Proof.
  intros Hinit. destruct (TopProvidersTracker_init_inv _ _ _ _ Hinit) as [Hinv0 _].
  assert (heap_inv t0) as Hheap0.
  { unfold TopProvidersTracker_init in Hinit.
    destruct (CountMinSketch_init w d); [|done]. injection Hinit as <-.
    split; [|constructor]. by intros p c x y _ _ Hx. }
  destruct (run_claims_heap_inv evs t0 Hinv0 Hheap0) as [Hord Hnum].
  split; [done|]. intros root r Hroot Hr.
  apply list_elem_of_lookup_1 in Hr as [i Hi]. rewrite head_lookup in Hroot.
  apply (heap_root_least (ref_lt (objects (run_claims evs t0)))
           (fun r => is_number (net_fee_total (deref (objects (run_claims evs t0)) r)))
           (fun a b _ _ => ref_lt_asym _ a b)) with (top_providers (run_claims evs t0)) i;
    [|done..].
  intros a b c _ Hb _. by apply ref_le_trans.
Qed.

End python_heap.

Lemma top_providers_is_a_min_heap_witness :
  exists t0,
    @TopProvidersTracker_init CPython.runtime 3 8 2 = Ok t0
    /\ heap_ordered_from (ref_lt (objects (@run_claims CPython.runtime test_claims t0))) 0
         (top_providers (@run_claims CPython.runtime test_claims t0))
    /\ forall root r,
         head (top_providers (@run_claims CPython.runtime test_claims t0)) = Some root ->
         r ∈ top_providers (@run_claims CPython.runtime test_claims t0) ->
         @d_ltb CPython.runtime
           (net_fee_total (deref (objects (@run_claims CPython.runtime test_claims t0)) r))
           (net_fee_total (deref (objects (@run_claims CPython.runtime test_claims t0)) root))
         = false.
Proof.
  eexists. split; [reflexivity|].
  apply (top_providers_is_a_min_heap 3 8 2). reflexivity.
Defined.
